(** * objcache: the in-memory object cache of pkg/objcache/objcache.go

    A shallow embedding of the cache engine: the keyed entry store, the
    commit protocol of [Create], the read path [Open], [Delete], and the
    sweep [gc] of the janitor, followed by the properties of the
    specification that are settled against it.

    Modelling choices.
    - [uint64] fields are integers in [Z] and every arithmetic operation
      of the source that can wrap is written with its reduction modulo
      [2^64]; [totalEvicted] is a Go [int] and wraps as a signed 64-bit
      word.
    - A [time.Time] is an instant counted in nanoseconds ([Z]); a
      [time.Duration] is a signed 64-bit count of nanoseconds, and
      [Time.Sub] saturates as the Go library does.  Every call of
      [time.Now()] is an explicit argument of the operation that makes it.
      All instants are readings of one clock: the difference between the
      wall and the monotonic reading of a [time.Time] is not modelled.
    - [StartGC] is the event that starts the janitor; its loop calls [gc]
      at each wake, and one wake is one run of [gc].  The timer and the
      rendezvous of [StopGC] are not modelled.
    - The map [entries] is a [gmap string buffer]; the order in which a Go
      [range] statement visits it is unspecified, and is an argument of
      [gc].
    - The mutex, the eviction callback and the start of the janitor
      goroutine are effects: every operation runs in the monad [M], which
      threads the cache and records these effects, in program order, as a
      list of [event]s.  The callback is opaque: a call is recorded with
      its argument, and the field [OnEviction] only tells whether it is
      set.
    - A pooled [bytebufferpool.ByteBuffer] is the list of bytes it holds.
      A buffer taken from the pool is empty; resetting a buffer and putting
      it back have no effect on the cache and are left as comments.  The
      sink returned by [Create] is used as the protocol says (written,
      then closed once): the aliasing between a sink that is written again
      after [Close] and the committed entry is outside this model. *)

From Stdlib Require Import ZArith Lia.
From Stdlib.Strings Require Import Byte.
From stdpp Require Import gmap strings list fin_maps.

Local Open Scope Z_scope.

Module objcache.

(** ** Machine integers, time *)

Definition uint64 (z : Z) : Z := z mod 2 ^ 64.

(** wrap-around of the Go type [int] (64 bits, signed) *)
Definition int (z : Z) : Z := (z + 2 ^ 63) mod 2 ^ 64 - 2 ^ 63.

Definition maxInt : Z := 2 ^ 63 - 1.

Definition minDuration : Z := - 2 ^ 63.
Definition maxDuration : Z := 2 ^ 63 - 1.

(** [t.Before(u)] *)
Definition Before (t u : Z) : bool := t <? u.

(** [t.Sub(u)]: the duration [t - u], or the largest (smallest) duration
    when the difference does not fit. *)
Definition Sub (t u : Z) : Z :=
  if maxDuration <? t - u then maxDuration
  else if t - u <? minDuration then minDuration
  else t - u.

(** [t.UTC()] changes the location of [t], not the instant. *)
Definition UTC (t : Z) : Z := t.

Definition NoExpiry : Z := 0.
Definition DefaultExpiry : Z := 3600 * 1000000000.
Definition defaultBufferRatio : Z := 10.

(** ** Errors *)

Inductive error : Type :=
| ErrKeyNotFoundInCache
| ErrCacheFull
| ErrExcessData
| errorString (s : string).   (* a value made on the spot by errors.New *)

(** ** Data *)

(** [buf.Len()] *)
Definition Len (b : list byte) : Z := Z.of_nat (length b).

Record buffer : Type := mkbuffer {
  buf : list byte;
  lastAccessed : Z
}.

Record Cache : Type := mkCache {
  maxSize : Z;
  maxCacheEntrySize : Z;
  currentSize : Z;
  OnEviction : bool;            (* true when the callback is not nil *)
  totalEvicted : Z;
  entries : gmap string buffer;
  expiry : Z;
  stopGC : bool                 (* true when the channel is not nil *)
}.

Definition set_entries (m : gmap string buffer) (c : Cache) : Cache :=
  mkCache (maxSize c) (maxCacheEntrySize c) (currentSize c) (OnEviction c)
          (totalEvicted c) m (expiry c) (stopGC c).

Definition set_currentSize (n : Z) (c : Cache) : Cache :=
  mkCache (maxSize c) (maxCacheEntrySize c) n (OnEviction c)
          (totalEvicted c) (entries c) (expiry c) (stopGC c).

Definition set_totalEvicted (n : Z) (c : Cache) : Cache :=
  mkCache (maxSize c) (maxCacheEntrySize c) (currentSize c) (OnEviction c)
          n (entries c) (expiry c) (stopGC c).

Definition set_stopGC (b : bool) (c : Cache) : Cache :=
  mkCache (maxSize c) (maxCacheEntrySize c) (currentSize c) (OnEviction c)
          (totalEvicted c) (entries c) (expiry c) b.

(** ** Effects *)

Inductive event : Type :=
| EvLock                        (* c.mutex.Lock() *)
| EvUnlock                      (* c.mutex.Unlock() *)
| EvOnEviction (key : string)   (* c.OnEviction(key) *)
| EvStartGC.                    (* the goroutine of StartGC is started *)

Definition M (A : Type) : Type := Cache -> A * Cache * list event.

Definition result {A} (r : A * Cache * list event) : A := r.1.1.
Definition state {A} (r : A * Cache * list event) : Cache := r.1.2.
Definition trace {A} (r : A * Cache * list event) : list event := r.2.

Arguments result {A} !r /.
Arguments state {A} !r /.
Arguments trace {A} !r /.

#[global] Instance M_ret : MRet M := fun A a c => (a, c, []).
#[global] Instance M_bind : MBind M := fun A B f m c =>
  let r1 := m c in
  let r2 := f (result r1) (state r1) in
  (result r2, state r2, trace r1 ++ trace r2).

Definition get : M Cache := fun c => (c, c, []).
Definition modify (f : Cache -> Cache) : M unit := fun c => (tt, f c, []).
Definition emit (e : event) : M unit := fun c => (tt, c, [e]).

Definition Lock : M unit := emit EvLock.
Definition Unlock : M unit := emit EvUnlock.

(** ** Operations *)

(** [func (c *Cache) delete(key string)] *)
Definition delete (key : string) : M unit :=
  c ← get;
  match entries c !! key with
  | Some b =>
      let deletedSize := uint64 (Len (buf b)) in
      (* buf.Reset(); bytebufferpool.Put(buf) *)
      modify (set_entries (base.delete key (entries c)));;
      modify (fun c =>
        set_currentSize (uint64 (currentSize c - deletedSize)) c);;
      modify (fun c => set_totalEvicted (int (totalEvicted c + 1)) c)
  | None => mret tt
  end.

(** [func New(maxSize uint64, expiry time.Duration) (c *Cache, err error)].
    There is no cache before [New]: it is not an action of [M] and
    returns its events beside its two results. *)
Definition New (maxSize : Z) (expiry : Z)
  : option Cache * option error * list event :=
  if maxSize =? 0 then
    (None, Some (errorString "invalid maximum cache size"), [])
  else
    let maxCacheEntrySize :=
      let i := maxSize / defaultBufferRatio in
      if i =? 0 then maxSize else i in
    let c := mkCache maxSize maxCacheEntrySize 0 false 0 ∅ expiry false in
    if 0 <? expiry then
      (Some (set_stopGC true c), None, [EvStartGC])
    else
      (Some c, None, []).

(** The closure [onClose] of [Create]: [key] and [buf] are the variables
    it captures, [now] is the reading of [time.Now()]. *)
Definition onClose (key : string) (buf : list byte) (now : Z)
  : M (option error) :=
  Lock;;
  err ← (c ← get;
         if Len buf =? 0 then
           (* buf.Reset(); bytebufferpool.Put(buf) *)
           mret None
         else if maxCacheEntrySize c <? uint64 (Len buf) then
           (* buf.Reset(); bytebufferpool.Put(buf) *)
           mret (Some ErrCacheFull)
         else
           modify (fun c =>
             set_entries (<[key := mkbuffer buf (UTC now)]> (entries c)) c);;
           modify (fun c =>
             set_currentSize (uint64 (currentSize c + uint64 (Len buf))) c);;
           mret None);
  Unlock;;                      (* deferred *)
  mret err.

(** Modelled from the spec: the type [writeCloser] that [Create] returns
    is declared outside objcache.go.  The sink appends the bytes written
    to its private buffer (repeatable, accumulates), and finalize runs
    [onClose]. *)
Record writeCloser : Type := mkwriteCloser {
  ByteBuffer : list byte;
  onClose_key : string          (* the key captured by onClose *)
}.

(** [func (c *Cache) Create(key string) (wc io.WriteCloser)] *)
Definition Create (key : string) : writeCloser :=
  let buf := [] (* bytebufferpool.Get() *) in
  mkwriteCloser buf key.

(** Modelled from the spec: a write appends to the private buffer of the
    sink and returns the number of bytes taken, with no error (this is
    the [Write] of the [ByteBuffer] the sink embeds). *)
Definition Write (w : writeCloser) (p : list byte)
  : writeCloser * (Z * option error) :=
  (mkwriteCloser (ByteBuffer w ++ p) (onClose_key w), (Len p, None)).

(** Modelled from the spec: finalize runs the closure [onClose] that
    [Create] stored in the sink. *)
Definition Close (w : writeCloser) (now : Z) : M (option error) :=
  onClose (onClose_key w) (ByteBuffer w) now.

(** [func (c *Cache) Open(key string, atime time.Time) (io.Reader, error)].
    The reader is the bytes it reads. *)
Definition Open (key : string) (atime : Z) (now : Z)
  : M (option (list byte) * option error) :=
  Lock;;
  r ← (c ← get;
       match entries c !! key with
       | None => mret (None, Some ErrKeyNotFoundInCache)
       | Some b =>
           if Before (lastAccessed b) atime then
             delete key;;
             mret (None, Some ErrKeyNotFoundInCache)
           else
             modify (fun c =>
               set_entries (<[key := mkbuffer (buf b) now]> (entries c)) c);;
             mret (Some (buf b), None)
       end);
  Unlock;;                      (* deferred *)
  mret r.

(** [func (c *Cache) Delete(key string)] *)
Definition Delete (key : string) : M unit :=
  Lock;;
  delete key;;
  Unlock;;
  c ← get;
  if OnEviction c then emit (EvOnEviction key) else mret tt.

(** The [range] statement of [gc].  [order] is the order in which the
    keys are visited and [clock k] the reading of [time.Now()] made while
    [k] is visited; a key that is not in the map is not produced. *)
Fixpoint gc_range (order : list string) (clock : string -> Z)
    (evictedEntries : list string) : M (list string) :=
  match order with
  | [] => mret evictedEntries
  | k :: order' =>
      c ← get;
      match entries c !! k with
      | None => gc_range order' clock evictedEntries
      | Some v =>
          if (0 <? expiry c)
             && (expiry c <? Sub (UTC (clock k)) (lastAccessed v))
          then
            delete k;;
            gc_range order' clock (evictedEntries ++ [k])
          else gc_range order' clock evictedEntries
      end
  end.

(** The second loop of [gc]. *)
Fixpoint notify (evictedEntries : list string) : M unit :=
  match evictedEntries with
  | [] => mret tt
  | k :: rest =>
      c ← get;
      (if OnEviction c then emit (EvOnEviction k) else mret tt);;
      notify rest
  end.

(** [func (c *Cache) gc()] *)
Definition gc (order : list string) (clock : string -> Z) : M unit :=
  Lock;;
  evictedEntries ← gc_range order clock [];
  Unlock;;
  notify evictedEntries.

(** ** Sequences of calls *)

(** The writes made to a sink, in order, with what each call returns. *)
Fixpoint write_all (w : writeCloser) (chunks : list (list byte))
  : writeCloser * list (Z * option error) :=
  match chunks with
  | [] => (w, [])
  | p :: chunks' =>
      let r := Write w p in
      let rs := write_all r.1 chunks' in
      (rs.1, r.2 :: rs.2)
  end.

(** One call of the public interface by a client. *)
Inductive op : Type :=
| OpCommit (key : string) (chunks : list (list byte)) (now : Z)
    (* Create(key), one Write per chunk, Close() *)
| OpOpen (key : string) (atime now : Z)
| OpDelete (key : string)
| OpGC (order : list string) (clock : string -> Z).
    (* one wake of the janitor *)

(** What the client gets back. *)
Inductive outcome : Type :=
| OutCommit (writes : list (Z * option error)) (err : option error)
| OutOpen (r : option (list byte) * option error)
| OutNone.

Definition exec (o : op) : M outcome :=
  match o with
  | OpCommit key chunks now =>
      let w := write_all (Create key) chunks in
      err ← Close w.1 now;
      mret (OutCommit w.2 err)
  | OpOpen key atime now =>
      r ← Open key atime now;
      mret (OutOpen r)
  | OpDelete key => Delete key;; mret OutNone
  | OpGC order clock => gc order clock;; mret OutNone
  end.

Fixpoint run (ops : list op) : M (list outcome) :=
  match ops with
  | [] => mret []
  | o :: ops' =>
      r ← exec o;
      rs ← run ops';
      mret (r :: rs)
  end.

(** ** Vocabulary of the specification *)

(** The fields of a cache are within the ranges of their Go types. *)
Definition wf (c : Cache) : Prop :=
  0 <= maxSize c < 2 ^ 64 /\
  0 <= maxCacheEntrySize c < 2 ^ 64 /\
  0 <= currentSize c < 2 ^ 64 /\
  - 2 ^ 63 <= totalEvicted c < 2 ^ 63 /\
  minDuration <= expiry c <= maxDuration.

(** The sum of the byte lengths of the entries of a map. *)
Definition storedBytes (m : gmap string buffer) : Z :=
  map_fold (fun _ b acc => Len (buf b) + acc) 0 m.

(** [currentSize] is the sum of the byte lengths of the stored entries,
    as a [uint64]. *)
Definition size_ok (c : Cache) : Prop :=
  currentSize c = uint64 (storedBytes (entries c)).

(** The sum of the byte lengths of the entries of [m] under the keys [ks]. *)
Fixpoint bytes_of (m : gmap string buffer) (ks : list string) : Z :=
  match ks with
  | [] => 0
  | k :: ks' =>
      match m !! k with
      | Some b => Len (buf b) + bytes_of m ks'
      | None => bytes_of m ks'
      end
  end.

(** The keys the callback was called with, in order. *)
Fixpoint callbacks (t : list event) : list string :=
  match t with
  | [] => []
  | EvOnEviction k :: t' => k :: callbacks t'
  | _ :: t' => callbacks t'
  end.

(** Every call of the callback in [t] is made while the mutex is not
    held; [held] tells whether it is held before [t]. *)
Fixpoint unlocked_callbacks (held : bool) (t : list event) : bool :=
  match t with
  | [] => true
  | EvLock :: t' => unlocked_callbacks true t'
  | EvUnlock :: t' => unlocked_callbacks false t'
  | EvOnEviction _ :: t' => negb held && unlocked_callbacks held t'
  | EvStartGC :: t' => unlocked_callbacks held t'
  end.

(** [order] is an order in which a [range] statement may visit [m]: every
    key of [m], once. *)
Definition range_of (m : gmap string buffer) (order : list string) : Prop :=
  NoDup order /\ forall k, k ∈ order <-> is_Some (m !! k).

(** The test of the sweep on the entry under [k], read at [clock k]. *)
Definition expired (c : Cache) (clock : string -> Z) (k : string) : bool :=
  match entries c !! k with
  | Some v => expiry c <? Sub (UTC (clock k)) (lastAccessed v)
  | None => false
  end.

(** The whole condition of the sweep. *)
Definition sweep_test (c : Cache) (clock : string -> Z) (k : string) : bool :=
  (0 <? expiry c) && expired c clock k.

(** The cache after [delete] of each key of [ks], in order. *)
Definition evict (ks : list string) (c : Cache) : Cache :=
  foldl (fun c k => state (delete k c)) c ks.

(** The errors returned to the client during a call. *)
Definition errors_of (r : outcome) : list error :=
  match r with
  | OutCommit writes err => omap snd writes ++ option_list err
  | OutOpen r => option_list r.2
  | OutNone => []
  end.

(** No commit of the sequence replaces an entry. *)
Fixpoint no_overwrite (ops : list op) (c : Cache) : Prop :=
  match ops with
  | [] => True
  | o :: ops' =>
      match o with
      | OpCommit key _ _ => entries c !! key = None
      | _ => True
      end /\ no_overwrite ops' (state (exec o c))
  end.

(** ** Invariants and the janitor *)

(** The fields that configure a cache. *)
Definition config (c : Cache) : Z * Z * bool * Z * bool :=
  (maxSize c, maxCacheEntrySize c, OnEviction c, expiry c, stopGC c).

(** Every stored entry holds at least one byte and at most
    [maxCacheEntrySize] bytes, as [onClose] compares them. *)
Definition entries_capped (c : Cache) : Prop :=
  forall k b, entries c !! k = Some b ->
    Len (buf b) <> 0 /\ uint64 (Len (buf b)) <= maxCacheEntrySize c.

(** The mutex is never locked while held nor unlocked while free; the
    result tells whether it is held after [t]. *)
Fixpoint lock_discipline (held : bool) (t : list event) : option bool :=
  match t with
  | [] => Some held
  | EvLock :: t' => if held then None else lock_discipline true t'
  | EvUnlock :: t' => if held then lock_discipline false t' else None
  | _ :: t' => lock_discipline held t'
  end.

(** The bytes of the entry that the call [o] replaces in [c]: those of the
    entry under the key of a commit that stores. *)
Definition replaced_by (o : op) (c : Cache) : Z :=
  match o with
  | OpCommit key chunks _ =>
      match entries c !! key with
      | Some b =>
          if (Len (concat chunks) =? 0)
             || (maxCacheEntrySize c <? uint64 (Len (concat chunks)))
          then 0 else Len (buf b)
      | None => 0
      end
  | _ => 0
  end.

Fixpoint replaced_bytes (ops : list op) (c : Cache) : Z :=
  match ops with
  | [] => 0
  | o :: ops' => replaced_by o c + replaced_bytes ops' (state (exec o c))
  end.

(** A cache and the janitor goroutines that [StartGC] started and that
    have not returned.  A goroutine of [StartGC] waits in its [select]
    for the timer, and then runs [gc], or for a value on [c.stopGC], and
    then returns; a receive from a nil channel never proceeds, and a send
    on the unbuffered [c.stopGC] completes only with a goroutine that
    receives. *)
Record system : Type := mksystem {
  cache : Cache;
  janitors : nat
}.

(** [func (c *Cache) StartGC()] *)
Definition StartGC (s : system) : system :=
  mksystem (cache s) (S (janitors s)).

(** [func (c *Cache) StopGC()]: nothing is sent on a nil channel; a send
    is taken by one janitor, which returns; [None] when the send blocks,
    there being no janitor to receive. *)
Definition StopGC (s : system) : option system :=
  if stopGC (cache s) then
    match janitors s with
    | O => None
    | S n => Some (mksystem (cache s) n)
    end
  else Some s.

(** The timer case of the [select] of a janitor: one run of [gc].  [None]
    when there is no janitor to wake. *)
Definition tick (order : list string) (clock : string -> Z) (s : system)
  : option (system * list event) :=
  match janitors s with
  | O => None
  | S _ =>
      let r := gc order clock (cache s) in
      Some (mksystem (state r) (janitors s), trace r)
  end.

(** The goroutines that the events [t] started. *)
Fixpoint started (t : list event) : nat :=
  match t with
  | [] => O
  | EvStartGC :: t' => S (started t')
  | _ :: t' => started t'
  end.

(** The system that [New] leaves. *)
Definition boot (n d : Z) : option system :=
  match New n d with
  | (Some c, _, t) => Some (mksystem c (started t))
  | (None, _, _) => None
  end.

(** ** Running the operations *)

Ltac run_M :=
  cbv beta iota zeta delta
    [mbind M_bind mret M_ret get modify emit Lock Unlock];
  cbn [result state trace fst snd].

Lemma delete_absent key c :
  entries c !! key = None -> delete key c = (tt, c, []).
Proof. intros H. unfold delete. run_M. rewrite H. reflexivity. Qed.

Lemma delete_present key c b :
  entries c !! key = Some b ->
  delete key c =
  (tt, mkCache (maxSize c) (maxCacheEntrySize c)
         (uint64 (currentSize c - uint64 (Len (buf b)))) (OnEviction c)
         (int (totalEvicted c + 1)) (base.delete key (entries c))
         (expiry c) (stopGC c), []).
Proof. intros H. unfold delete. run_M. rewrite H. reflexivity. Qed.

Lemma delete_trace key c : trace (delete key c) = [].
Proof.
  destruct (entries c !! key) as [b|] eqn:H.
  - rewrite (delete_present _ _ _ H). reflexivity.
  - rewrite (delete_absent _ _ H). reflexivity.
Qed.

Lemma Open_absent key atime now c :
  entries c !! key = None ->
  Open key atime now c =
  ((None, Some ErrKeyNotFoundInCache), c, [EvLock; EvUnlock]).
Proof. intros H. unfold Open. run_M. rewrite H. reflexivity. Qed.

Lemma Open_stale key atime now c b :
  entries c !! key = Some b -> lastAccessed b < atime ->
  Open key atime now c =
  ((None, Some ErrKeyNotFoundInCache), state (delete key c),
   [EvLock; EvUnlock]).
Proof.
  intros H Hlt. unfold Open. run_M. rewrite H.
  unfold Before. destruct (Z.ltb_spec (lastAccessed b) atime); [|lia].
  rewrite (delete_present _ _ _ H). reflexivity.
Qed.

Lemma Open_fresh key atime now c b :
  entries c !! key = Some b -> ~ lastAccessed b < atime ->
  Open key atime now c =
  ((Some (buf b), None),
   set_entries (<[key := mkbuffer (buf b) now]> (entries c)) c,
   [EvLock; EvUnlock]).
Proof.
  intros H Hge. unfold Open. run_M. rewrite H.
  unfold Before. destruct (Z.ltb_spec (lastAccessed b) atime); [lia|].
  reflexivity.
Qed.

Lemma onClose_empty key now c :
  onClose key [] now c = (None, c, [EvLock; EvUnlock]).
Proof. reflexivity. Qed.

Lemma onClose_full key p now c :
  Len p <> 0 -> maxCacheEntrySize c < uint64 (Len p) ->
  onClose key p now c = (Some ErrCacheFull, c, [EvLock; EvUnlock]).
Proof.
  intros H0 Hgt. unfold onClose. run_M.
  destruct (Z.eqb_spec (Len p) 0); [lia|].
  destruct (Z.ltb_spec (maxCacheEntrySize c) (uint64 (Len p))); [|lia].
  reflexivity.
Qed.

Lemma onClose_commit key p now c :
  Len p <> 0 -> uint64 (Len p) <= maxCacheEntrySize c ->
  onClose key p now c =
  (None,
   mkCache (maxSize c) (maxCacheEntrySize c)
     (uint64 (currentSize c + uint64 (Len p))) (OnEviction c)
     (totalEvicted c) (<[key := mkbuffer p now]> (entries c))
     (expiry c) (stopGC c),
   [EvLock; EvUnlock]).
Proof.
  intros H0 Hle. unfold onClose. run_M.
  destruct (Z.eqb_spec (Len p) 0); [lia|].
  destruct (Z.ltb_spec (maxCacheEntrySize c) (uint64 (Len p))); [lia|].
  reflexivity.
Qed.

Lemma write_all_buffer w chunks :
  ByteBuffer (write_all w chunks).1 = ByteBuffer w ++ concat chunks /\
  onClose_key (write_all w chunks).1 = onClose_key w.
Proof.
  revert w. induction chunks as [|p chunks IH]; intros w.
  - simpl. rewrite app_nil_r. done.
  - cbn [write_all fst snd]. destruct (IH (Write w p).1) as [-> ->].
    simpl. rewrite <- app_assoc. done.
Qed.

Lemma Len_nonneg p : 0 <= Len p.
Proof. unfold Len. lia. Qed.

Lemma Len_nil p : Len p = 0 -> p = [].
Proof. unfold Len. destruct p; simpl; [done | lia]. Qed.

Lemma uint64_small z : 0 <= z < 2 ^ 64 -> uint64 z = z.
Proof. intros H. unfold uint64. apply Z.mod_small. exact H. Qed.

Lemma uint64_le z : 0 <= z -> uint64 z <= z.
Proof. intros H. unfold uint64. apply Z.mod_le; lia. Qed.

(** ** Construction *)

(** C7. [New] returns an error exactly when [maxSize] is zero; for every
    positive [maxSize] it returns a cache and no error, and the per-entry
    cap of that cache is [maxSize / 10], or [maxSize] itself when the
    quotient is zero, which is when [maxSize < 10]. *)
Theorem New_maxCacheEntrySize (n d : Z) :
  ((New n d).1.2 <> None <-> n = 0) /\
  (0 < n ->
   exists c, (New n d).1 = (Some c, None) /\
     maxSize c = n /\
     maxCacheEntrySize c = (if n / 10 =? 0 then n else n / 10) /\
     (n / 10 = 0 <-> n < 10)).
Proof.
  split.
  - unfold New. destruct (Z.eqb_spec n 0) as [->|Hn].
    + simpl. split; [reflexivity | discriminate].
    + destruct (0 <? d); simpl; split; intros H; congruence || lia.
  - intros Hn. unfold New.
    destruct (Z.eqb_spec n 0) as [->|_]; [lia|].
    assert (Hdiv : n / 10 = 0 <-> n < 10).
    { split; intros H.
      - destruct (Z.lt_ge_cases n 10) as [|Hge]; [done|].
        assert (1 <= n / 10) by (apply Z.div_le_lower_bound; lia). lia.
      - apply Z.div_small. lia. }
    destruct (0 <? d); eexists; (split; [reflexivity|]); simpl; done.
Qed.

Lemma New_maxCacheEntrySize_witness :
  0 < 25 /\
  exists c, (New 25 0).1 = (Some c, None) /\
    maxSize c = 25 /\
    maxCacheEntrySize c = (if 25 / 10 =? 0 then 25 else 25 / 10) /\
    (25 / 10 = 0 <-> 25 < 10).
Proof.
  split; [lia|]. apply (proj2 (New_maxCacheEntrySize 25 0)). lia.
Defined.

(** [New] starts the janitor exactly when [expiry] is positive. *)
Lemma New_StartGC (n d : Z) :
  n <> 0 ->
  (EvStartGC ∈ (New n d).2 <-> 0 < d) /\
  (forall c, (New n d).1.1 = Some c ->
     expiry c = d /\ size_ok c /\ (stopGC c = true <-> 0 < d)).
Proof.
  intros Hn. unfold New. destruct (Z.eqb_spec n 0) as [|_]; [done|].
  destruct (Z.ltb_spec 0 d); simpl.
  - split; [split; [done | intros _; apply list_elem_of_singleton; done]|].
    intros c [= <-]. done.
  - split; [split; [by intros ?%not_elem_of_nil | lia]|].
    intros c [= <-]. simpl. split; [done|]. split; [done|].
    split; [done | lia].
Qed.

(** ** Delete *)

(** C10. When no entry is stored under [key], the store-mutation part of
    [Delete] does nothing: the cache after [delete key], and after
    [Delete key], is the cache before, so [entries], [currentSize] and
    [totalEvicted] are unchanged. *)
Theorem Delete_absent_unchanged key c :
  entries c !! key = None ->
  state (delete key c) = c /\
  state (Delete key c) = c /\
  entries (state (Delete key c)) = entries c /\
  currentSize (state (Delete key c)) = currentSize c /\
  totalEvicted (state (Delete key c)) = totalEvicted c.
Proof.
  intros H.
  assert (Hd : state (Delete key c) = c).
  { unfold Delete. run_M. rewrite (delete_absent _ _ H). run_M.
    destruct (OnEviction c); reflexivity. }
  rewrite Hd, (delete_absent _ _ H). done.
Qed.

Lemma Delete_absent_unchanged_witness :
  let c := mkCache 100 10 0 true 0 ∅ 0 false in
  entries c !! "k" = None /\
  state (delete "k" c) = c /\
  state (Delete "k" c) = c /\
  entries (state (Delete "k" c)) = entries c /\
  currentSize (state (Delete "k" c)) = currentSize c /\
  totalEvicted (state (Delete "k" c)) = totalEvicted c.
Proof.
  split; [reflexivity|]. apply Delete_absent_unchanged. reflexivity.
Defined.

(** ** The commit protocol *)

(** C5. Finalizing a sink in which no byte was accumulated returns no
    error and leaves the whole cache as it was; if there was no entry
    under the key, a later [Open] of the key, at any time, is a miss. *)
Theorem Close_zero_bytes key chunks now c :
  Len (concat chunks) = 0 ->
  let w := (write_all (Create key) chunks).1 in
  result (Close w now c) = None /\
  state (Close w now c) = c /\
  (entries c !! key = None ->
   forall atime now',
     result (Open key atime now' (state (Close w now c)))
     = (None, Some ErrKeyNotFoundInCache)).
Proof.
  intros H0 w. unfold Close, w.
  destruct (write_all_buffer (Create key) chunks) as [-> ->].
  cbn [Create ByteBuffer onClose_key app].
  rewrite (Len_nil _ H0), onClose_empty.
  repeat split. intros Hk atime now'.
  change (state (None, c, [EvLock; EvUnlock])) with c.
  rewrite (Open_absent _ _ _ _ Hk). reflexivity.
Qed.

Lemma Close_zero_bytes_witness :
  let c := mkCache 100 10 0 true 0 ∅ 0 false in
  let w := (write_all (Create "k") [[]; []]).1 in
  result (Close w 5 c) = None /\
  state (Close w 5 c) = c /\
  forall atime now',
    result (Open "k" atime now' (state (Close w 5 c)))
    = (None, Some ErrKeyNotFoundInCache).
Proof.
  intros c w.
  destruct (Close_zero_bytes "k" [[]; []] 5 c) as (H1 & H2 & H3);
    [reflexivity|].
  split; [exact H1|]. split; [exact H2|]. apply H3. reflexivity.
Defined.

(** C6. Finalizing a sink that accumulated more than [maxCacheEntrySize]
    bytes returns [ErrCacheFull] and leaves the whole cache, in
    particular [entries] and [currentSize], as it was.  (The length of a
    Go slice is an [int]; the per-entry cap is a [uint64].) *)
Theorem Close_too_large key chunks now c :
  0 <= maxCacheEntrySize c ->
  Len (concat chunks) <= maxInt ->
  maxCacheEntrySize c < Len (concat chunks) ->
  let w := (write_all (Create key) chunks).1 in
  result (Close w now c) = Some ErrCacheFull /\
  state (Close w now c) = c /\
  entries (state (Close w now c)) = entries c /\
  currentSize (state (Close w now c)) = currentSize c.
Proof.
  intros Hcap Hint Hgt w. unfold Close, w.
  destruct (write_all_buffer (Create key) chunks) as [-> ->].
  cbn [Create ByteBuffer onClose_key app].
  rewrite onClose_full; [done | lia |].
  rewrite uint64_small; [lia|]. unfold maxInt in Hint. lia.
Qed.

Lemma Close_too_large_witness :
  let c := mkCache 15 1 0 true 0 ∅ 0 false in
  let w := (write_all (Create "k") [[x61]; [x62]]).1 in
  result (Close w 5 c) = Some ErrCacheFull /\
  state (Close w 5 c) = c /\
  entries (state (Close w 5 c)) = entries c /\
  currentSize (state (Close w 5 c)) = currentSize c.
Proof.
  apply (Close_too_large "k" [[x61]; [x62]] 5
           (mkCache 15 1 0 true 0 ∅ 0 false));
    unfold Len, maxInt; simpl; lia.
Defined.

(** C3. Round trip: after [Create key], writing a payload [p] of
    [0 < len(p) <= maxCacheEntrySize] bytes and [Close], which returns no
    error, [Open key atime] with [atime] not after the commit time returns
    no error and a reader over exactly [p]. *)
Theorem round_trip key chunks now atime now' c :
  0 < Len (concat chunks) <= maxCacheEntrySize c ->
  atime <= now ->
  let w := (write_all (Create key) chunks).1 in
  result (Close w now c) = None /\
  result (Open key atime now' (state (Close w now c)))
  = (Some (concat chunks), None).
Proof.
  intros Hlen Ht w. unfold Close, w.
  destruct (write_all_buffer (Create key) chunks) as [-> ->].
  cbn [Create ByteBuffer onClose_key app].
  rewrite onClose_commit; [| lia |].
  2:{ pose proof (uint64_le (Len (concat chunks))). lia. }
  split; [reflexivity|].
  cbv beta iota delta [state fst snd].
  rewrite (Open_fresh _ _ _ _ (mkbuffer (concat chunks) now));
    [reflexivity | simpl; apply lookup_insert_eq | simpl; lia].
Qed.

Lemma round_trip_witness :
  let c := mkCache 100 10 0 true 0 ∅ 0 false in
  let w := (write_all (Create "k") [[x61]; [x62; x63]]).1 in
  result (Close w 5 c) = None /\
  result (Open "k" 5 9 (state (Close w 5 c))) = (Some [x61; x62; x63], None).
Proof.
  apply (round_trip "k" [[x61]; [x62; x63]] 5 5 9
           (mkCache 100 10 0 true 0 ∅ 0 false));
    [unfold Len; simpl; lia | lia].
Defined.

(** ** The read path *)

(** C4. Freshness check of [Open] on a stored entry.  If [lastAccessed]
    is strictly before the reference time, [Open] deletes the entry and
    returns [ErrKeyNotFoundInCache], and the next [Open] of the key, at
    any time, is a miss too.  Otherwise [Open] returns the bytes with no
    error and sets the entry's [lastAccessed] to the current time. *)
Theorem Open_freshness key atime now c b :
  entries c !! key = Some b ->
  (lastAccessed b < atime ->
   result (Open key atime now c) = (None, Some ErrKeyNotFoundInCache) /\
   entries (state (Open key atime now c)) = base.delete key (entries c) /\
   forall atime' now',
     result (Open key atime' now' (state (Open key atime now c)))
     = (None, Some ErrKeyNotFoundInCache)) /\
  (~ lastAccessed b < atime ->
   result (Open key atime now c) = (Some (buf b), None) /\
   entries (state (Open key atime now c))
   = <[key := mkbuffer (buf b) now]> (entries c)).
Proof.
  intros H. split; intros Ht.
  - rewrite (Open_stale _ _ _ _ _ H Ht).
    cbv beta iota delta [result state fst snd].
    rewrite (delete_present _ _ _ H).
    split; [reflexivity|]. split; [reflexivity|]. intros atime' now'.
    rewrite Open_absent; [reflexivity|]. simpl. apply lookup_delete_eq.
  - rewrite (Open_fresh _ _ _ _ _ H Ht). done.
Qed.

Lemma Open_freshness_witness :
  let c := mkCache 100 10 1 true 0 {[ "k" := mkbuffer [x61] 5 ]} 0 false in
  (result (Open "k" 6 9 c) = (None, Some ErrKeyNotFoundInCache) /\
   entries (state (Open "k" 6 9 c)) = base.delete "k" (entries c) /\
   forall atime' now',
     result (Open "k" atime' now' (state (Open "k" 6 9 c)))
     = (None, Some ErrKeyNotFoundInCache)) /\
  (result (Open "k" 5 9 c) = (Some [x61], None) /\
   entries (state (Open "k" 5 9 c))
   = <[ "k" := mkbuffer [x61] 9 ]> (entries c)).
Proof.
  intros c. split.
  - apply (proj1 (Open_freshness "k" 6 9 c (mkbuffer [x61] 5) eq_refl)).
    simpl. lia.
  - apply (proj2 (Open_freshness "k" 5 9 c (mkbuffer [x61] 5) eq_refl)).
    simpl. lia.
Defined.

(** ** The sweep *)

Lemma uint64_range z : 0 <= uint64 z < 2 ^ 64.
Proof. unfold uint64. apply Z.mod_pos_bound. lia. Qed.

Lemma int_range z : - 2 ^ 63 <= int z < 2 ^ 63.
Proof.
  unfold int. pose proof (Z.mod_pos_bound (z + 2 ^ 63) (2 ^ 64)). lia.
Qed.

Lemma int_small z : - 2 ^ 63 <= z < 2 ^ 63 -> int z = z.
Proof. intros H. unfold int. rewrite Z.mod_small; lia. Qed.

Lemma uint64_sub_sub a b d :
  uint64 (uint64 (a - uint64 b) - d) = uint64 (a - (b + d)).
Proof.
  unfold uint64. generalize (2 ^ 64). intros n.
  rewrite Zminus_mod_idemp_l.
  replace (a - b mod n - d) with (a - d - b mod n) by lia.
  rewrite Zminus_mod_idemp_r. f_equal. lia.
Qed.

Lemma int_add_add t a b : int (int (t + a) + b) = int (t + (a + b)).
Proof.
  unfold int. f_equal.
  replace ((t + a + 2 ^ 63) mod 2 ^ 64 - 2 ^ 63 + b + 2 ^ 63)
    with ((t + a + 2 ^ 63) mod 2 ^ 64 + b) by lia.
  rewrite Zplus_mod_idemp_l. f_equal. lia.
Qed.

Lemma delete_entries key c :
  entries (state (delete key c)) = base.delete key (entries c).
Proof.
  destruct (entries c !! key) as [b|] eqn:H.
  - rewrite (delete_present _ _ _ H). reflexivity.
  - rewrite (delete_absent _ _ H). simpl. symmetry. by apply delete_id.
Qed.

Lemma delete_frame key c :
  maxSize (state (delete key c)) = maxSize c /\
  maxCacheEntrySize (state (delete key c)) = maxCacheEntrySize c /\
  OnEviction (state (delete key c)) = OnEviction c /\
  expiry (state (delete key c)) = expiry c /\
  stopGC (state (delete key c)) = stopGC c.
Proof.
  destruct (entries c !! key) as [b|] eqn:H.
  - rewrite (delete_present _ _ _ H). done.
  - rewrite (delete_absent _ _ H). done.
Qed.

Lemma evict_cons k ks c : evict (k :: ks) c = evict ks (state (delete k c)).
Proof. reflexivity. Qed.

Lemma evict_entries ks : forall c k,
  entries (evict ks c) !! k
  = if bool_decide (k ∈ ks) then None else entries c !! k.
Proof.
  induction ks as [|k' ks IH]; intros c k.
  - reflexivity.
  - rewrite evict_cons, IH, delete_entries.
    destruct (decide (k = k')) as [->|Hne].
    + rewrite lookup_delete_eq.
      rewrite (bool_decide_eq_true_2 (k' ∈ k' :: ks)) by constructor.
      by destruct (bool_decide (k' ∈ ks)).
    + rewrite lookup_delete_ne by done.
      destruct (decide (k ∈ ks)) as [Hin|Hnin].
      * rewrite !bool_decide_eq_true_2; [done | by constructor | done].
      * rewrite !bool_decide_eq_false_2; [done | | done].
        intros [?|?]%elem_of_cons; done.
Qed.

Lemma evict_frame ks : forall c,
  maxSize (evict ks c) = maxSize c /\
  maxCacheEntrySize (evict ks c) = maxCacheEntrySize c /\
  OnEviction (evict ks c) = OnEviction c /\
  expiry (evict ks c) = expiry c /\
  stopGC (evict ks c) = stopGC c.
Proof.
  induction ks as [|k ks IH]; intros c; [done|].
  rewrite evict_cons.
  destruct (IH (state (delete k c))) as (-> & -> & -> & -> & ->).
  apply delete_frame.
Qed.

Lemma bytes_of_delete m k (ks : list string) :
  k ∉ ks -> bytes_of (base.delete k m) ks = bytes_of m ks.
Proof.
  induction ks as [|k' ks IH]; intros Hk; [done|].
  apply not_elem_of_cons in Hk as [Hne Hk]. simpl.
  rewrite lookup_delete_ne by done. by rewrite IH.
Qed.

Lemma evict_counters ks : forall c,
  NoDup ks -> (forall k, k ∈ ks -> is_Some (entries c !! k)) ->
  0 <= currentSize c < 2 ^ 64 ->
  - 2 ^ 63 <= totalEvicted c < 2 ^ 63 ->
  currentSize (evict ks c) = uint64 (currentSize c - bytes_of (entries c) ks)
  /\ totalEvicted (evict ks c) = int (totalEvicted c + Z.of_nat (length ks)).
Proof.
  induction ks as [|k ks IH]; intros c Hnd Hin Hcs Hte.
  - simpl. rewrite Z.sub_0_r, Z.add_0_r, uint64_small, int_small; done.
  - apply NoDup_cons in Hnd as [Hk Hnd].
    destruct (Hin k) as [b Hb]; [constructor|].
    rewrite evict_cons.
    destruct (IH (state (delete k c))) as [-> ->]; [done | | | |].
    + intros k' Hk'. rewrite delete_entries, lookup_delete_ne.
      * apply Hin. by constructor.
      * intros ->. done.
    + rewrite (delete_present _ _ _ Hb). simpl. apply uint64_range.
    + rewrite (delete_present _ _ _ Hb). simpl. apply int_range.
    + rewrite delete_entries, (bytes_of_delete _ _ _ Hk).
      rewrite (delete_present _ _ _ Hb). cbn [state fst snd currentSize
        totalEvicted bytes_of length]. rewrite Hb.
      rewrite uint64_sub_sub, int_add_add. split; [done|].
      f_equal. lia.
Qed.

Lemma sweep_test_delete c clock k k' :
  k <> k' ->
  sweep_test (state (delete k c)) clock k' = sweep_test c clock k'.
Proof.
  intros Hne. unfold sweep_test, expired.
  destruct (delete_frame k c) as (_ & _ & _ & -> & _).
  rewrite delete_entries, lookup_delete_ne by done. reflexivity.
Qed.

Lemma filter_sweep_test_delete c clock k (order : list string) :
  k ∉ order ->
  filter (sweep_test (state (delete k c)) clock) order
  = filter (sweep_test c clock) order.
Proof.
  induction order as [|k' order IH]; intros Hk; [done|].
  apply not_elem_of_cons in Hk as [Hne Hk].
  rewrite !filter_cons, sweep_test_delete, IH by done. reflexivity.
Qed.

(** The first loop of [gc] deletes, in the order of the visit, the keys
    that pass the test of the sweep, and records nothing else. *)
Lemma gc_range_evict clock order : forall c evictedEntries,
  NoDup order ->
  gc_range order clock evictedEntries c
  = (evictedEntries ++ filter (sweep_test c clock) order,
     evict (filter (sweep_test c clock) order) c, []).
Proof.
  induction order as [|k order IH]; intros c ev Hnd.
  - simpl. rewrite app_nil_r. reflexivity.
  - apply NoDup_cons in Hnd as [Hk Hnd].
    cbn [gc_range]. run_M.
    destruct (entries c !! k) as [v|] eqn:Hv.
    + assert (Hst : sweep_test c clock k
                    = (0 <? expiry c)
                      && (expiry c <? Sub (UTC (clock k)) (lastAccessed v))).
      { unfold sweep_test, expired. rewrite Hv. reflexivity. }
      destruct ((0 <? expiry c)
                && (expiry c <? Sub (UTC (clock k)) (lastAccessed v))).
      * rewrite filter_cons_True by (rewrite Hst; exact I).
        run_M. rewrite (IH _ _ Hnd), delete_trace, evict_cons. run_M.
        rewrite (filter_sweep_test_delete _ _ _ _ Hk).
        rewrite <- app_assoc. reflexivity.
      * rewrite filter_cons_False by (rewrite Hst; exact id).
        rewrite (IH _ _ Hnd). reflexivity.
    + rewrite filter_cons_False; [rewrite (IH _ _ Hnd); reflexivity|].
      unfold sweep_test, expired. rewrite Hv, andb_false_r. exact id.
Qed.

Lemma notify_trace evictedEntries c :
  notify evictedEntries c
  = (tt, c, if OnEviction c then EvOnEviction <$> evictedEntries else []).
Proof.
  induction evictedEntries as [|k ks IH].
  - simpl. by destruct (OnEviction c).
  - cbn [notify]. run_M.
    destruct (OnEviction c) eqn:Hc; run_M; rewrite IH; run_M;
      rewrite ?Hc; reflexivity.
Qed.

Lemma gc_run order clock c :
  NoDup order ->
  let evicted := filter (sweep_test c clock) order in
  gc order clock c
  = (tt, evict evicted c,
     [EvLock; EvUnlock]
     ++ (if OnEviction c then EvOnEviction <$> evicted else [])).
Proof.
  intros Hnd evicted. unfold gc. run_M.
  rewrite (gc_range_evict _ _ _ _ Hnd). run_M. rewrite notify_trace. run_M.
  destruct (evict_frame (filter (sweep_test c clock) order) c)
    as (_ & _ & -> & _). reflexivity.
Qed.

Lemma gc_range_inv (P : Cache -> Prop) clock order :
  (forall k c, P c -> P (state (delete k c))) ->
  forall c evictedEntries,
    P c ->
    P (state (gc_range order clock evictedEntries c)) /\
    trace (gc_range order clock evictedEntries c) = [].
Proof.
  intros Hdel. induction order as [|k order IH]; intros c ev Hc.
  - done.
  - cbn [gc_range]. run_M.
    destruct (entries c !! k) as [v|]; [|by apply IH].
    destruct ((0 <? expiry c)
              && (expiry c <? Sub (UTC (clock k)) (lastAccessed v))).
    + run_M. rewrite delete_trace.
      apply (IH (state (delete k c)) (ev ++ [k])), Hdel, Hc.
    + by apply IH.
Qed.

(** Whatever the order of the visit, a sweep holds the mutex while it
    deletes and calls the callback after it has released it. *)
Lemma gc_shape (P : Cache -> Prop) order clock c :
  (forall k c, P c -> P (state (delete k c))) ->
  P c ->
  P (state (gc order clock c)) /\
  exists ks, trace (gc order clock c)
             = [EvLock; EvUnlock] ++ (EvOnEviction <$> ks).
Proof.
  intros Hdel Hc. unfold gc. run_M.
  destruct (gc_range_inv P clock order Hdel c [] Hc) as [HP ->].
  rewrite notify_trace. run_M. split; [exact HP|].
  destruct (OnEviction _); [by eexists | by exists []].
Qed.

(** C9. One wake of the janitor of a cache with expiry enabled.  The
    sweep deletes exactly the entries whose idle time, the reading of the
    clock minus [lastAccessed], exceeds [expiry]: they leave the map,
    every other entry is untouched, their lengths are subtracted from
    [currentSize] and [totalEvicted] counts them.  The callback, when
    set, is then called once per evicted key, after the mutex is
    released.  An entry whose idle time is within [expiry] is kept. *)
Theorem gc_sweep order clock c :
  0 < expiry c ->
  range_of (entries c) order ->
  wf c ->
  let c' := state (gc order clock c) in
  let evicted := filter (expired c clock) order in
  (forall k, k ∈ evicted <->
     exists v, entries c !! k = Some v /\
               expiry c < Sub (clock k) (lastAccessed v)) /\
  NoDup evicted /\
  (forall k, entries c' !! k
             = if bool_decide (k ∈ evicted) then None else entries c !! k) /\
  currentSize c' = uint64 (currentSize c - bytes_of (entries c) evicted) /\
  totalEvicted c' = int (totalEvicted c + Z.of_nat (length evicted)) /\
  trace (gc order clock c)
  = [EvLock; EvUnlock]
    ++ (if OnEviction c then EvOnEviction <$> evicted else []) /\
  unlocked_callbacks false (trace (gc order clock c)) = true /\
  (forall k v, entries c !! k = Some v ->
     Sub (clock k) (lastAccessed v) <= expiry c ->
     entries c' !! k = Some v).
Proof.
  intros Hexp [Hnd Hdom] (_ & _ & Hcs & Hte & _) c' evicted.
  assert (Hsame : filter (sweep_test c clock) order = evicted).
  { apply list_filter_iff. intros k. unfold sweep_test.
    destruct (Z.ltb_spec 0 (expiry c)); [done | lia]. }
  assert (Hin : forall k, k ∈ evicted <->
     exists v, entries c !! k = Some v /\
               expiry c < Sub (clock k) (lastAccessed v)).
  { intros k. unfold evicted. rewrite list_elem_of_filter, Hdom.
    unfold expired, UTC. destruct (entries c !! k) as [v|].
    - destruct (Z.ltb_spec (expiry c) (Sub (clock k) (lastAccessed v))).
      + split; [by eauto | intros _; split; [exact I | by eauto]].
      + split; [by intros [[] _] | intros (v' & [= <-] & ?); lia].
    - split; [by intros [[] _] | by intros (v' & [=] & _)]. }
  assert (Hrun := gc_run order clock c Hnd). cbv zeta in Hrun.
  rewrite Hsame in Hrun. subst c'. rewrite Hrun. run_M.
  assert (Hlook : forall k, entries (evict evicted c) !! k
             = if bool_decide (k ∈ evicted) then None else entries c !! k)
    by apply evict_entries.
  destruct (evict_counters evicted c) as [Hcs' Hte']; [| | done | done |].
  { by apply NoDup_filter. }
  { intros k [v [Hv _]]%Hin. by eauto. }
  split; [exact Hin|]. split; [by apply NoDup_filter|].
  split; [exact Hlook|]. split; [exact Hcs'|]. split; [exact Hte'|].
  split; [reflexivity|]. split.
  - destruct (OnEviction c); [|reflexivity].
    generalize evicted. intros l. by induction l.
  - intros k v Hv Hidle. rewrite Hlook, bool_decide_eq_false_2; [done|].
    intros (v' & Hv' & Hlt)%Hin. rewrite Hv in Hv'. injection Hv' as <-. lia.
Qed.

(** Every map has an order of visit: its keys as [map_to_list] gives
    them. *)
Lemma range_of_map_to_list (m : gmap string buffer) :
  range_of m (map_to_list m).*1.
Proof.
  split; [apply NoDup_fst_map_to_list|].
  intros k. rewrite list_elem_of_fmap. split.
  - intros ([k' v] & -> & Hkv). apply elem_of_map_to_list in Hkv. by eauto.
  - intros [v Hv]. exists (k, v). split; [done|].
    by apply elem_of_map_to_list.
Qed.

Lemma gc_sweep_witness :
  let c := mkCache 100 10 3 true 0
             {[ "a" := mkbuffer [x61] 5; "b" := mkbuffer [x62; x63] 95 ]}
             10 true in
  let clock := fun _ : string => 100 in
  let c' := state (gc ["b"; "a"] clock c) in
  let evicted := filter (expired c clock) ["b"; "a"] in
  (forall k, k ∈ evicted <->
     exists v, entries c !! k = Some v /\
               expiry c < Sub (clock k) (lastAccessed v)) /\
  NoDup evicted /\
  (forall k, entries c' !! k
             = if bool_decide (k ∈ evicted) then None else entries c !! k) /\
  currentSize c' = uint64 (currentSize c - bytes_of (entries c) evicted) /\
  totalEvicted c' = int (totalEvicted c + Z.of_nat (length evicted)) /\
  trace (gc ["b"; "a"] clock c)
  = [EvLock; EvUnlock]
    ++ (if OnEviction c then EvOnEviction <$> evicted else []) /\
  unlocked_callbacks false (trace (gc ["b"; "a"] clock c)) = true /\
  (forall k v, entries c !! k = Some v ->
     Sub (clock k) (lastAccessed v) <= expiry c ->
     entries c' !! k = Some v).
Proof.
  intros c clock. apply (gc_sweep ["b"; "a"] clock c).
  - simpl. lia.
  - split.
    + apply NoDup_cons. split; [|apply NoDup_singleton].
      intros Hin%list_elem_of_singleton. discriminate Hin.
    + intros k. rewrite <- elem_of_dom. unfold c. cbn [entries].
      rewrite dom_insert_L, dom_singleton_L, elem_of_union,
        !elem_of_singleton, elem_of_cons, list_elem_of_singleton. tauto.
  - unfold wf, minDuration, maxDuration. simpl. lia.
Defined.

Example sweep_example :
  let c := mkCache 100 10 3 true 0
             {[ "a" := mkbuffer [x61] 5; "b" := mkbuffer [x62; x63] 95 ]}
             10 true in
  gc ["b"; "a"] (fun _ => 100) c
  = (tt,
     mkCache 100 10 2 true 1 {[ "b" := mkbuffer [x62; x63] 95 ]} 10 true,
     [EvLock; EvUnlock; EvOnEviction "a"]).
Proof. vm_compute. reflexivity. Qed.

(** A cache without expiry is never swept: [gc] deletes nothing. *)
Lemma gc_NoExpiry order clock c :
  expiry c <= 0 -> NoDup order ->
  gc order clock c = (tt, c, [EvLock; EvUnlock]).
Proof.
  intros Hexp Hnd. rewrite (gc_run _ _ _ Hnd).
  assert (filter (sweep_test c clock) order = []) as ->.
  { clear Hnd. induction order as [|k order IH]; [done|].
    rewrite filter_cons_False; [done|]. unfold sweep_test.
    destruct (Z.ltb_spec 0 (expiry c)); [lia | exact id]. }
  simpl. by destruct (OnEviction c).
Qed.

(** ** The eviction callback *)

Lemma callbacks_app t1 t2 : callbacks (t1 ++ t2) = callbacks t1 ++ callbacks t2.
Proof.
  induction t1 as [|e t1 IH]; [done|].
  destruct e; simpl; by rewrite IH.
Qed.

Lemma callbacks_OnEviction ks : callbacks (EvOnEviction <$> ks) = ks.
Proof. induction ks as [|k ks IH]; [done|]. simpl. f_equal. exact IH. Qed.

Lemma unlocked_callbacks_call held ks t :
  held = false ->
  unlocked_callbacks held ((EvOnEviction <$> ks) ++ t)
  = unlocked_callbacks held t.
Proof. intros ->. induction ks as [|k ks IH]; [done|]. simpl. exact IH. Qed.

Lemma Open_trace key atime now c :
  trace (Open key atime now c) = [EvLock; EvUnlock].
Proof.
  destruct (entries c !! key) as [b|] eqn:H.
  - destruct (Z.lt_ge_cases (lastAccessed b) atime) as [Hlt|Hge].
    + by rewrite (Open_stale _ _ _ _ _ H Hlt).
    + rewrite (Open_fresh _ _ _ _ _ H); [done | lia].
  - by rewrite (Open_absent _ _ _ _ H).
Qed.

Lemma onClose_trace key p now c :
  trace (onClose key p now c) = [EvLock; EvUnlock].
Proof.
  unfold onClose. run_M.
  destruct (Len p =? 0); [done|].
  by destruct (maxCacheEntrySize c <? uint64 (Len p)).
Qed.

Lemma Delete_trace key c :
  trace (Delete key c)
  = [EvLock; EvUnlock] ++ (if OnEviction c then [EvOnEviction key] else []).
Proof.
  unfold Delete. run_M. rewrite delete_trace.
  destruct (delete_frame key c) as (_ & _ & -> & _).
  by destruct (OnEviction c).
Qed.

Lemma exec_trace o c :
  exists ks, trace (exec o c) = [EvLock; EvUnlock] ++ (EvOnEviction <$> ks).
Proof.
  destruct o as [key chunks now|key atime now|key|order clock];
    unfold exec; run_M; rewrite ?app_nil_r.
  - exists []. apply onClose_trace.
  - exists []. apply Open_trace.
  - rewrite Delete_trace.
    destruct (OnEviction c); [by exists [key] | by exists []].
  - exact (proj2 (gc_shape (fun _ => True) order clock c
                    (fun _ _ _ => I) I)).
Qed.

Lemma run_unlocked ops : forall c,
  unlocked_callbacks false (trace (run ops c)) = true.
Proof.
  induction ops as [|o ops IH]; intros c; [done|].
  cbn [run]. run_M. rewrite app_nil_r.
  destruct (exec_trace o c) as [ks ->].
  rewrite <- app_assoc. cbn [app unlocked_callbacks].
  rewrite unlocked_callbacks_call by done. apply IH.
Qed.

(** C2, as the code has it.  When the callback is set, [Delete key]
    calls it exactly once with [key], whether or not an entry was stored
    under [key], and a sweep calls it exactly once for each key it
    evicted and for no other key; [Open], also when its freshness check
    deletes the entry, and [Close] never call it.  When it is not set
    nothing is called.  In every sequence of operations every call of the
    callback is made while the mutex is not held. *)
Theorem OnEviction_calls key atime now (w : writeCloser) order clock c :
  NoDup order ->
  callbacks (trace (Delete key c)) = (if OnEviction c then [key] else []) /\
  (let evicted := filter (sweep_test c clock) order in
   callbacks (trace (gc order clock c))
   = (if OnEviction c then evicted else []) /\
   NoDup evicted /\
   forall k, k ∈ evicted <->
     k ∈ order /\ is_Some (entries c !! k) /\
     entries (state (gc order clock c)) !! k = None) /\
  callbacks (trace (Open key atime now c)) = [] /\
  callbacks (trace (Close w now c)) = [] /\
  (forall ops c0, unlocked_callbacks false (trace (run ops c0)) = true).
Proof.
  intros Hnd. split; [|split; [|split; [|split]]].
  - rewrite Delete_trace. by destruct (OnEviction c).
  - intros evicted. rewrite (gc_run _ _ _ Hnd). run_M. fold evicted.
    split; [|split].
    + destruct (OnEviction c); [|done]. apply callbacks_OnEviction.
    + by apply NoDup_filter.
    + intros k. rewrite evict_entries. unfold evicted at 1.
      rewrite list_elem_of_filter. split.
      * intros [Ht Hin]. split; [done|]. split.
        -- unfold sweep_test, expired in Ht.
           destruct (entries c !! k); [by eauto|].
           rewrite andb_false_r in Ht. destruct Ht.
        -- rewrite bool_decide_eq_true_2; [done|].
           by apply list_elem_of_filter.
      * intros (Hin & [v Hv] & Hgone). split; [|done].
        destruct (decide (k ∈ evicted)) as [Hev|Hev].
        -- by apply list_elem_of_filter in Hev as [? _].
        -- rewrite bool_decide_eq_false_2 in Hgone by done. congruence.
  - by rewrite Open_trace.
  - unfold Close. by rewrite onClose_trace.
  - intros ops c0. apply run_unlocked.
Qed.

Lemma OnEviction_calls_witness :
  let c := mkCache 100 10 3 true 0
             {[ "a" := mkbuffer [x61] 5; "b" := mkbuffer [x62; x63] 95 ]}
             10 true in
  callbacks (trace (Delete "a" c)) = ["a"] /\
  callbacks (trace (Delete "z" c)) = ["z"] /\
  callbacks (trace (gc ["b"; "a"] (fun _ => 100) c)) = ["a"] /\
  callbacks (trace (Open "a" 6 7 c)) = [].
Proof.
  intros c.
  assert (Hnd : NoDup ["b"; "a"]).
  { apply NoDup_cons. split; [|apply NoDup_singleton].
    intros Hin%list_elem_of_singleton. discriminate Hin. }
  split; [|split; [|split]].
  - exact (proj1 (OnEviction_calls "a" 6 7 (Create "a") ["b"; "a"]
                    (fun _ => 100) c Hnd)).
  - exact (proj1 (OnEviction_calls "z" 6 7 (Create "z") ["b"; "a"]
                    (fun _ => 100) c Hnd)).
  - exact (proj1 (proj1 (proj2 (OnEviction_calls "a" 6 7 (Create "a")
                    ["b"; "a"] (fun _ => 100) c Hnd)))).
  - exact (proj1 (proj2 (proj2 (OnEviction_calls "a" 6 7 (Create "a")
                    ["b"; "a"] (fun _ => 100) c Hnd)))).
Defined.

(** C2, as the specification states it, fails twice.  [Delete] of a key
    with no entry deletes nothing (the cache is unchanged) and still calls
    the callback; [Open] with a reference time after [lastAccessed] deletes
    the entry (it is gone and counted in [totalEvicted]) and calls
    nothing. *)
Lemma OnEviction_not_once_per_deletion :
  let c0 := mkCache 100 10 0 true 0 ∅ 0 false in
  let c1 := mkCache 100 10 1 true 0 {[ "k" := mkbuffer [x61] 5 ]} 0 false in
  (entries c0 !! "k" = None /\
   state (Delete "k" c0) = c0 /\
   callbacks (trace (Delete "k" c0)) = ["k"]) /\
  (entries c1 !! "k" = Some (mkbuffer [x61] 5) /\
   entries (state (Open "k" 6 7 c1)) !! "k" = None /\
   totalEvicted (state (Open "k" 6 7 c1)) = totalEvicted c1 + 1 /\
   callbacks (trace (Open "k" 6 7 c1)) = []).
Proof. vm_compute. repeat split. Qed.

(** ** The error taxonomy *)

Lemma write_all_no_error chunks : forall w,
  omap snd (write_all w chunks).2 = [].
Proof.
  induction chunks as [|p chunks IH]; intros w; [done|].
  cbn [write_all fst snd Write omap list_omap]. apply IH.
Qed.

Lemma onClose_result key p now c :
  result (onClose key p now c) = None \/
  result (onClose key p now c) = Some ErrCacheFull.
Proof.
  unfold onClose. run_M.
  destruct (Len p =? 0); [by left|].
  destruct (maxCacheEntrySize c <? uint64 (Len p)); [by right | by left].
Qed.

Lemma Open_result key atime now c :
  (exists p, result (Open key atime now c) = (Some p, None)) \/
  result (Open key atime now c) = (None, Some ErrKeyNotFoundInCache).
Proof.
  destruct (entries c !! key) as [b|] eqn:H.
  - destruct (Z.lt_ge_cases (lastAccessed b) atime) as [Hlt|Hge].
    + right. by rewrite (Open_stale _ _ _ _ _ H Hlt).
    + left. exists (buf b). rewrite (Open_fresh _ _ _ _ _ H); [done | lia].
  - right. by rewrite (Open_absent _ _ _ _ H).
Qed.

Lemma exec_errors o c :
  ErrExcessData ∉ errors_of (result (exec o c)).
Proof.
  destruct o as [key chunks now|key atime now|key|order clock];
    unfold exec; run_M; cbn [errors_of].
  - rewrite write_all_no_error. unfold Close. cbn [app].
    destruct (onClose_result (onClose_key (write_all (Create key) chunks).1)
                (ByteBuffer (write_all (Create key) chunks).1) now c)
      as [-> | ->]; simpl.
    + apply not_elem_of_nil.
    + by intros [=]%list_elem_of_singleton.
  - destruct (Open_result key atime now c) as [[p ->] | ->]; simpl.
    + apply not_elem_of_nil.
    + by intros [=]%list_elem_of_singleton.
  - apply not_elem_of_nil.
  - apply not_elem_of_nil.
Qed.

(** C8. [ErrExcessData] is never returned: not by [New], and in no
    sequence of commits (the writes and the finalize), opens, deletes and
    sweeps, from any cache, does a call return it. *)
Theorem ErrExcessData_unreachable :
  (forall n d, (New n d).1.2 <> Some ErrExcessData) /\
  (forall ops c,
     ErrExcessData ∉ concat (errors_of <$> result (run ops c))).
Proof.
  split.
  - intros n d. unfold New. destruct (n =? 0); [discriminate|].
    destruct (0 <? d); discriminate.
  - induction ops as [|o ops IH]; intros c.
    + apply not_elem_of_nil.
    + cbn [run]. run_M. cbn [fmap list_fmap concat].
      apply not_elem_of_app. split; [apply exec_errors | apply IH].
Qed.

(** ** Size accounting *)

Lemma storedBytes_insert m k b :
  m !! k = None -> storedBytes (<[k := b]> m) = Len (buf b) + storedBytes m.
Proof.
  intros H. unfold storedBytes.
  rewrite map_fold_insert_L; [done | intros; lia | done].
Qed.

Lemma storedBytes_delete m k b :
  m !! k = Some b -> storedBytes (base.delete k m) = storedBytes m - Len (buf b).
Proof.
  intros H. unfold storedBytes.
  rewrite (map_fold_delete_L _ _ k b m); [lia | intros; lia | done].
Qed.

Lemma storedBytes_replace m k b b' :
  m !! k = Some b ->
  storedBytes (<[k := b']> m) = storedBytes m - Len (buf b) + Len (buf b').
Proof.
  intros H. rewrite <- insert_delete_eq.
  rewrite storedBytes_insert by apply lookup_delete_eq.
  rewrite (storedBytes_delete _ _ _ H). lia.
Qed.

Lemma uint64_add a b : uint64 (uint64 a + uint64 b) = uint64 (a + b).
Proof. unfold uint64. symmetry. apply Zplus_mod. Qed.

Lemma uint64_sub a b : uint64 (uint64 a - uint64 b) = uint64 (a - b).
Proof. unfold uint64. symmetry. apply Zminus_mod. Qed.

Lemma delete_size_ok k c : size_ok c -> size_ok (state (delete k c)).
Proof.
  unfold size_ok. intros Hc.
  destruct (entries c !! k) as [b|] eqn:H.
  - rewrite (delete_present _ _ _ H). cbn [state fst snd currentSize entries].
    rewrite (storedBytes_delete _ _ _ H), Hc. apply uint64_sub.
  - by rewrite (delete_absent _ _ H).
Qed.

Lemma Open_size_ok key atime now c :
  size_ok c -> size_ok (state (Open key atime now c)).
Proof.
  intros Hc. destruct (entries c !! key) as [b|] eqn:H.
  - destruct (Z.lt_ge_cases (lastAccessed b) atime) as [Hlt|Hge].
    + rewrite (Open_stale _ _ _ _ _ H Hlt). by apply delete_size_ok.
    + rewrite (Open_fresh _ _ _ _ _ H) by lia. unfold size_ok in *.
      cbn [state fst snd set_entries currentSize entries].
      rewrite (storedBytes_replace _ _ _ _ H). cbn [buf]. rewrite Hc.
      f_equal. lia.
  - by rewrite (Open_absent _ _ _ _ H).
Qed.

Lemma Delete_state key c : state (Delete key c) = state (delete key c).
Proof.
  unfold Delete. run_M. by destruct (OnEviction (state (delete key c))).
Qed.

(** A commit keeps the accounting when it does not replace an entry. *)
Lemma onClose_size_ok key p now c :
  entries c !! key = None ->
  size_ok c -> size_ok (state (onClose key p now c)).
Proof.
  intros Hk Hc.
  destruct (Z.eq_dec (Len p) 0) as [H0|H0].
  { by rewrite (Len_nil _ H0), onClose_empty. }
  destruct (Z.lt_ge_cases (maxCacheEntrySize c) (uint64 (Len p))) as [Hgt|Hle].
  { by rewrite (onClose_full _ _ _ _ H0 Hgt). }
  rewrite onClose_commit by lia. unfold size_ok in *.
  cbn [state fst snd currentSize entries].
  rewrite (storedBytes_insert _ _ _ Hk). cbn [buf]. rewrite Hc.
  rewrite uint64_add. f_equal. lia.
Qed.

(** A commit that replaces an entry leaves the bytes of the entry it
    replaced in [currentSize]. *)
Lemma onClose_overwrite key p now c b :
  entries c !! key = Some b ->
  Len p <> 0 -> uint64 (Len p) <= maxCacheEntrySize c ->
  size_ok c ->
  currentSize (state (onClose key p now c))
  = uint64 (storedBytes (entries (state (onClose key p now c)))
            + Len (buf b)).
Proof.
  intros Hk H0 Hle Hc. rewrite onClose_commit by done. unfold size_ok in Hc.
  cbn [state fst snd currentSize entries].
  rewrite (storedBytes_replace _ _ _ _ Hk). cbn [buf]. rewrite Hc.
  unfold uint64. rewrite Zplus_mod_idemp_l, Zplus_mod_idemp_r.
  f_equal. lia.
Qed.

Lemma exec_size_ok o c :
  match o with
  | OpCommit key _ _ => entries c !! key = None
  | _ => True
  end ->
  size_ok c -> size_ok (state (exec o c)).
Proof.
  destruct o as [key chunks now|key atime now|key|order clock];
    intros Hk Hc; unfold exec; run_M.
  - unfold Close.
    destruct (write_all_buffer (Create key) chunks) as [_ ->].
    by apply onClose_size_ok.
  - by apply Open_size_ok.
  - rewrite Delete_state. by apply delete_size_ok.
  - apply (gc_shape size_ok); [apply delete_size_ok | done].
Qed.

(** Size accounting holds along every sequence of operations in which no
    commit replaces an entry. *)
Lemma run_size_ok ops : forall c,
  size_ok c -> no_overwrite ops c -> size_ok (state (run ops c)).
Proof.
  induction ops as [|o ops IH]; intros c Hc Hno; [done|].
  destruct Hno as [Hk Hno]. cbn [run]. run_M.
  apply IH; [by apply exec_size_ok | done].
Qed.

(** C1.  The accounting fails on a commit that replaces an entry: on a
    cache made by [New], after two successful one-byte commits under the
    same key the store holds one entry of one byte and [currentSize] is
    2, so [currentSize] is not the sum of the stored lengths. *)
Theorem overwrite_breaks_size_accounting :
  let ops := [OpCommit "k" [[x61]] 1; OpCommit "k" [[x62]] 2] in
  exists c0,
    (New 100 0).1 = (Some c0, None) /\
    size_ok c0 /\
    result (run ops c0) = [OutCommit [(1, None)] None;
                           OutCommit [(1, None)] None] /\
    entries (state (run ops c0)) = {[ "k" := mkbuffer [x62] 2 ]} /\
    storedBytes (entries (state (run ops c0))) = 1 /\
    currentSize (state (run ops c0)) = 2 /\
    ~ size_ok (state (run ops c0)).
Proof.
  eexists. split; [reflexivity|]. unfold size_ok. vm_compute.
  repeat split. discriminate.
Qed.

(** ** Further properties of the operations *)

(** The three ways [onClose] ends. *)
Lemma onClose_cases key p now c :
  (p = [] /\ onClose key p now c = (None, c, [EvLock; EvUnlock])) \/
  (Len p <> 0 /\ maxCacheEntrySize c < uint64 (Len p) /\
   onClose key p now c = (Some ErrCacheFull, c, [EvLock; EvUnlock])) \/
  (Len p <> 0 /\ uint64 (Len p) <= maxCacheEntrySize c /\
   onClose key p now c =
   (None,
    mkCache (maxSize c) (maxCacheEntrySize c)
      (uint64 (currentSize c + uint64 (Len p))) (OnEviction c)
      (totalEvicted c) (<[key := mkbuffer p now]> (entries c))
      (expiry c) (stopGC c),
    [EvLock; EvUnlock])).
Proof.
  destruct (Z.eq_dec (Len p) 0) as [H0|H0].
  { left. rewrite (Len_nil _ H0). by rewrite onClose_empty. }
  right.
  destruct (Z.lt_ge_cases (maxCacheEntrySize c) (uint64 (Len p))) as [Hgt|Hle].
  - left. by rewrite (onClose_full _ _ _ _ H0 Hgt).
  - right. rewrite onClose_commit by lia. split; [done|]. split; [lia|done].
Qed.

(** The three ways [Open] ends. *)
Lemma Open_cases key atime now c :
  (entries c !! key = None /\
   Open key atime now c
   = ((None, Some ErrKeyNotFoundInCache), c, [EvLock; EvUnlock])) \/
  (exists b, entries c !! key = Some b /\ lastAccessed b < atime /\
   Open key atime now c
   = ((None, Some ErrKeyNotFoundInCache), state (delete key c),
      [EvLock; EvUnlock])) \/
  (exists b, entries c !! key = Some b /\ atime <= lastAccessed b /\
   Open key atime now c
   = ((Some (buf b), None),
      set_entries (<[key := mkbuffer (buf b) now]> (entries c)) c,
      [EvLock; EvUnlock])).
Proof.
  destruct (entries c !! key) as [b|] eqn:H.
  - right. destruct (Z.lt_ge_cases (lastAccessed b) atime) as [Hlt|Hge].
    + left. exists b. by rewrite (Open_stale _ _ _ _ _ H Hlt).
    + right. exists b. rewrite (Open_fresh _ _ _ _ _ H) by lia. done.
  - left. by rewrite (Open_absent _ _ _ _ H).
Qed.

Lemma delete_config k c : config (state (delete k c)) = config c.
Proof.
  unfold config.
  by destruct (delete_frame k c) as (-> & -> & -> & -> & ->).
Qed.

Lemma exec_config o c : config (state (exec o c)) = config c.
Proof.
  destruct o as [key chunks now|key atime now|key|order clock];
    unfold exec; run_M.
  - unfold Close.
    destruct (onClose_cases (onClose_key (write_all (Create key) chunks).1)
                (ByteBuffer (write_all (Create key) chunks).1) now c)
      as [[_ ->] | [(_ & _ & ->) | (_ & _ & ->)]]; done.
  - destruct (Open_cases key atime now c)
      as [[_ ->] | [(b & _ & _ & ->) | (b & _ & _ & ->)]];
      [done | apply delete_config | done].
  - rewrite Delete_state. apply delete_config.
  - apply (gc_shape (fun c' => config c' = config c)); [|done].
    intros k c' <-. apply delete_config.
Qed.

Lemma run_keeps_config ops : forall c,
  config (state (run ops c)) = config c.
Proof.
  induction ops as [|o ops IH]; intros c; [done|].
  cbn [run]. run_M. rewrite IH. apply exec_config.
Qed.

(** X1. No operation changes the configuration of a cache: along every
    sequence of commits, opens, deletes and sweeps, [maxSize],
    [maxCacheEntrySize], [expiry], [stopGC] and the callback stay as they
    were. *)
Theorem run_config ops : forall c,
  config (state (run ops c)) = config c.
Proof.
  induction ops as [|o ops IH]; intros c.
  - reflexivity.
  - cbn [run]. run_M. rewrite IH. apply exec_config.
Qed.

Lemma delete_entries_capped k c :
  entries_capped c -> entries_capped (state (delete k c)).
Proof.
  intros Hc k' b. rewrite delete_entries.
  destruct (delete_frame k c) as (_ & -> & _).
  intros [_ Hb]%lookup_delete_Some. exact (Hc k' b Hb).
Qed.

Lemma exec_entries_capped o c :
  entries_capped c -> entries_capped (state (exec o c)).
Proof.
  destruct o as [key chunks now|key atime now|key|order clock];
    intros Hc; unfold exec; run_M.
  - unfold Close.
    destruct (onClose_cases (onClose_key (write_all (Create key) chunks).1)
                (ByteBuffer (write_all (Create key) chunks).1) now c)
      as [[_ ->] | [(_ & _ & ->) | (H0 & Hle & ->)]]; [done | done |].
    intros k b. cbn [state fst snd entries maxCacheEntrySize].
    destruct (decide (onClose_key (write_all (Create key) chunks).1 = k))
      as [->|Hne].
    + rewrite lookup_insert_eq. by intros [= <-].
    + rewrite lookup_insert_ne by done. apply Hc.
  - destruct (Open_cases key atime now c)
      as [[_ ->] | [(b & _ & _ & ->) | (b & Hb & _ & ->)]];
      [done | by apply delete_entries_capped |].
    intros k b'. cbn [state fst snd set_entries entries maxCacheEntrySize].
    destruct (decide (key = k)) as [->|Hne].
    + rewrite lookup_insert_eq. intros [= <-]. by apply (Hc k b).
    + rewrite lookup_insert_ne by done. apply Hc.
  - rewrite Delete_state. by apply delete_entries_capped.
  - apply (gc_shape entries_capped); [apply delete_entries_capped | done].
Qed.

(** X2. The per-entry cap is an invariant of the store: if every stored
    entry is non-empty and within [maxCacheEntrySize], so it is after any
    sequence of commits, opens, deletes and sweeps. *)
Theorem run_entries_capped ops : forall c,
  entries_capped c -> entries_capped (state (run ops c)).
Proof.
  induction ops as [|o ops IH]; intros c Hc; [done|].
  cbn [run]. run_M. by apply IH, exec_entries_capped.
Qed.

Lemma run_entries_capped_witness :
  let c := mkCache 100 10 0 false 0 ∅ 0 false in
  entries_capped
    (state (run [OpCommit "k" [[x61]; [x62]] 1; OpOpen "k" 0 2;
                 OpCommit "j" [] 3; OpDelete "k"] c)).
Proof.
  intros c. apply run_entries_capped.
  intros k b H. unfold c in H. cbn [entries] in H.
  rewrite lookup_empty in H. discriminate H.
Defined.

(** X3. What [New] establishes.  For a positive [maxSize] and an
    [expiry] within the range of a duration, the cache is within the
    ranges of its types, its store is empty with both counters at zero,
    and the per-entry cap lies between one byte and [maxSize]. *)
Theorem New_establishes (n d : Z) :
  0 < n < 2 ^ 64 ->
  minDuration <= d <= maxDuration ->
  exists c, (New n d).1 = (Some c, None) /\
    wf c /\ entries c = ∅ /\ currentSize c = 0 /\ totalEvicted c = 0 /\
    OnEviction c = false /\
    1 <= maxCacheEntrySize c <= n /\
    size_ok c /\ entries_capped c.
Proof.
  intros Hn Hd. unfold New. destruct (Z.eqb_spec n 0) as [|_]; [lia|].
  assert (Hcap : 1 <= (if n / 10 =? 0 then n else n / 10) <= n).
  { destruct (Z.eqb_spec (n / 10) 0) as [|Hq]; [lia|].
    assert (0 <= n / 10) by (apply Z.div_pos; lia).
    assert (n / 10 <= n) by (apply Z.div_le_upper_bound; lia). lia. }
  assert (Hemp : forall c, entries c = ∅ -> entries_capped c).
  { intros c Hc k b. rewrite Hc, lookup_empty. discriminate. }
  destruct (0 <? d); eexists; (split; [reflexivity|]);
    unfold wf, size_ok, defaultBufferRatio; cbn;
    (repeat split; try done; try lia; try (by apply Hemp)).
Qed.

Lemma New_establishes_witness :
  exists c, (New 25 7).1 = (Some c, None) /\
    wf c /\ entries c = ∅ /\ currentSize c = 0 /\ totalEvicted c = 0 /\
    OnEviction c = false /\
    1 <= maxCacheEntrySize c <= 25 /\
    size_ok c /\ entries_capped c.
Proof.
  apply (New_establishes 25 7); unfold minDuration, maxDuration; lia.
Defined.

(** X4. After [Delete key] the key is gone, whether or not it was stored:
    the next [Open] of the key, at any time, is a miss; every other entry
    is untouched. *)
Theorem Delete_then_Open key atime now c :
  result (Open key atime now (state (Delete key c)))
  = (None, Some ErrKeyNotFoundInCache) /\
  entries (state (Delete key c)) !! key = None /\
  forall k, k <> key ->
    entries (state (Delete key c)) !! k = entries c !! k.
Proof.
  rewrite Delete_state.
  assert (Hk : entries (state (delete key c)) !! key = None).
  { rewrite delete_entries. apply lookup_delete_eq. }
  split; [by rewrite (Open_absent _ _ _ _ Hk)|]. split; [done|].
  intros k Hne. rewrite delete_entries. by apply lookup_delete_ne.
Qed.

(** X5. A commit is all or nothing and never evicts.  If [Close] returns
    an error the cache is unchanged; if it returns none after at least one
    byte was written, the entry under the key is the payload stamped with
    the commit time.  In every case the other entries and [totalEvicted]
    are untouched, and the verdict depends on the payload and the
    per-entry cap only, not on [maxSize] or [currentSize]. *)
Theorem Close_all_or_nothing key chunks now c :
  let w := (write_all (Create key) chunks).1 in
  let c' := state (Close w now c) in
  (result (Close w now c) <> None -> c' = c) /\
  (result (Close w now c) = None -> Len (concat chunks) <> 0 ->
   entries c' !! key = Some (mkbuffer (concat chunks) now)) /\
  totalEvicted c' = totalEvicted c /\
  (forall k, k <> key -> entries c' !! k = entries c !! k) /\
  (forall c2, maxCacheEntrySize c2 = maxCacheEntrySize c ->
     result (Close w now c2) = result (Close w now c)).
Proof.
  intros w c'. unfold c', w, Close.
  destruct (write_all_buffer (Create key) chunks) as [-> ->].
  cbn [Create ByteBuffer onClose_key app].
  destruct (onClose_cases key (concat chunks) now c)
    as [[Hp Hr] | [(H0 & Hgt & Hr) | (H0 & Hle & Hr)]]; rewrite Hr;
    cbn [result state fst snd entries totalEvicted].
  - split; [done|]. split; [intros _ Hn; by rewrite Hp in Hn|].
    split; [done|]. split; [done|]. intros c2 _. by rewrite Hp.
  - split; [done|]. split; [done|]. split; [done|]. split; [done|].
    intros c2 Hc2. rewrite onClose_full; [done | done | lia].
  - split; [done|]. split; [intros _ _; apply lookup_insert_eq|].
    split; [done|].
    split; [intros k Hne; by rewrite lookup_insert_ne|].
    intros c2 Hc2. rewrite onClose_commit; [done | done | lia].
Qed.

Lemma Close_all_or_nothing_witness :
  let c := mkCache 15 1 0 true 0 ∅ 0 false in
  let w2 := (write_all (Create "k") [[x61]; [x62]]).1 in
  let w1 := (write_all (Create "k") [[x61]]).1 in
  state (Close w2 5 c) = c /\
  entries (state (Close w1 5 c)) !! "k" = Some (mkbuffer [x61] 5).
Proof.
  intros c w2 w1. split.
  - apply (proj1 (Close_all_or_nothing "k" [[x61]; [x62]] 5 c)).
    vm_compute. discriminate.
  - apply (proj1 (proj2 (Close_all_or_nothing "k" [[x61]] 5 c)));
      vm_compute; [reflexivity | discriminate].
Defined.

(** X6. [Open] returns bytes exactly when an entry is stored under the key
    and its [lastAccessed] is not before the reference time; the bytes are
    those of the entry, and otherwise the error is
    [ErrKeyNotFoundInCache]. *)
Theorem Open_hit_iff key atime now c :
  ((exists p, result (Open key atime now c) = (Some p, None)) <->
   (exists b, entries c !! key = Some b /\ atime <= lastAccessed b)) /\
  (forall b, entries c !! key = Some b -> atime <= lastAccessed b ->
     result (Open key atime now c) = (Some (buf b), None)) /\
  ((forall p, result (Open key atime now c) <> (Some p, None)) ->
   result (Open key atime now c) = (None, Some ErrKeyNotFoundInCache)).
Proof.
  destruct (Open_cases key atime now c)
    as [[Hk ->] | [(b & Hb & Hlt & ->) | (b & Hb & Hge & ->)]];
    cbn [result fst].
  - split; [split|split].
    + by intros [p [=]].
    + intros (b & Hb & _). congruence.
    + intros b Hb. congruence.
    + done.
  - split; [split|split].
    + by intros [p [=]].
    + intros (b' & Hb' & Hge). rewrite Hb in Hb'. injection Hb' as <-. lia.
    + intros b' Hb' Hge. rewrite Hb in Hb'. injection Hb' as <-. lia.
    + done.
  - split; [split|split].
    + intros _. by exists b.
    + intros _. by eexists.
    + intros b' Hb' _. rewrite Hb in Hb'. by injection Hb' as <-.
    + intros Hno. by destruct (Hno (buf b)).
Qed.

Lemma Open_hit_iff_witness :
  let c := mkCache 100 10 1 true 0 {[ "k" := mkbuffer [x61] 5 ]} 0 false in
  result (Open "k" 5 9 c) = (Some [x61], None).
Proof.
  intros c.
  apply (proj1 (proj2 (Open_hit_iff "k" 5 9 c)) (mkbuffer [x61] 5));
    [reflexivity | simpl; lia].
Defined.

(** X7. Reading does not consume and slides the freshness horizon: after
    an [Open] that returned bytes at time [now], any later [Open] with a
    reference time not after [now] returns the same bytes; the first
    [Open] changed neither [currentSize] nor [totalEvicted] nor any other
    entry. *)
Theorem Open_again key atime now atime' now' c p :
  result (Open key atime now c) = (Some p, None) ->
  atime' <= now ->
  result (Open key atime' now' (state (Open key atime now c)))
  = (Some p, None) /\
  currentSize (state (Open key atime now c)) = currentSize c /\
  totalEvicted (state (Open key atime now c)) = totalEvicted c /\
  forall k, k <> key ->
    entries (state (Open key atime now c)) !! k = entries c !! k.
Proof.
  destruct (Open_cases key atime now c)
    as [[Hk ->] | [(b & Hb & Hlt & ->) | (b & Hb & Hge & ->)]];
    cbn [result state fst snd]; [by intros [=] | by intros [=] |].
  intros [= <-] Ht. split; [|split; [done|split; [done|]]].
  - rewrite (Open_fresh _ _ _ _ (mkbuffer (buf b) now));
      [done | simpl; apply lookup_insert_eq | simpl; lia].
  - intros k Hne. simpl. by rewrite lookup_insert_ne.
Qed.

Lemma Open_again_witness :
  let c := mkCache 100 10 1 true 0 {[ "k" := mkbuffer [x61] 5 ]} 0 false in
  result (Open "k" 9 20 (state (Open "k" 5 9 c))) = (Some [x61], None).
Proof.
  intros c.
  apply (proj1 (Open_again "k" 5 9 9 20 c [x61] eq_refl (Z.le_refl 9))).
Defined.

(** ** Further properties of the sweep *)

Lemma gc_range_disabled clock order : forall c evictedEntries,
  expiry c <= 0 ->
  gc_range order clock evictedEntries c = (evictedEntries, c, []).
Proof.
  induction order as [|k order IH]; intros c ev Hexp; [done|].
  cbn [gc_range]. run_M.
  destruct (Z.ltb_spec 0 (expiry c)); [lia|]. cbn [andb].
  destruct (entries c !! k); rewrite (IH _ _ Hexp); reflexivity.
Qed.

Lemma gc_disabled_run order clock c :
  expiry c <= 0 ->
  gc order clock c = (tt, c, [EvLock; EvUnlock]).
Proof.
  intros Hexp. unfold gc. run_M.
  rewrite (gc_range_disabled _ _ _ _ Hexp). run_M. reflexivity.
Qed.

(** X8. A cache without expiry is never swept: when [expiry] is zero or
    negative, [gc] deletes nothing, whatever the order of the visit and
    the clock, and calls no callback. *)
Theorem gc_disabled order clock c :
  expiry c <= 0 ->
  gc order clock c = (tt, c, [EvLock; EvUnlock]).
Proof.
  intros Hexp. unfold gc. run_M.
  rewrite (gc_range_disabled _ _ _ _ Hexp). run_M.
  reflexivity.
Qed.

Lemma gc_disabled_witness :
  let c := mkCache 100 10 1 true 0 {[ "k" := mkbuffer [x61] 5 ]} 0 false in
  gc ["k"; "k"; "j"] (fun _ => 1000) c = (tt, c, [EvLock; EvUnlock]).
Proof. intros c. apply gc_disabled. simpl. lia. Defined.

Lemma filter_none {A} (P : A -> Prop) `{forall x, Decision (P x)}
    (l : list A) :
  (forall x, x ∈ l -> ~ P x) -> filter P l = [].
Proof.
  induction l as [|x l IH]; intros Hl; [done|].
  rewrite filter_cons_False by (apply Hl; constructor).
  apply IH. intros y Hy. apply Hl. by constructor.
Qed.

(** X9. A sweep leaves nothing for a second sweep at the same readings of
    the clock: run again, [gc] deletes nothing and calls no callback. *)
Theorem gc_twice order clock c :
  NoDup order ->
  gc order clock (state (gc order clock c))
  = (tt, state (gc order clock c), [EvLock; EvUnlock]).
Proof.
  intros Hnd. rewrite (gc_run _ _ c Hnd). cbn [state fst snd].
  set (ev := filter (sweep_test c clock) order).
  rewrite (gc_run _ _ _ Hnd).
  assert (filter (sweep_test (evict ev c) clock) order = []) as ->.
  { apply filter_none. intros k Hk. unfold sweep_test, expired.
    destruct (evict_frame ev c) as (_ & _ & _ & -> & _).
    rewrite evict_entries.
    destruct (decide (k ∈ ev)) as [Hev|Hev].
    - rewrite bool_decide_eq_true_2 by done. rewrite andb_false_r. exact id.
    - rewrite bool_decide_eq_false_2 by done. intros Ht. apply Hev.
      apply list_elem_of_filter. split; [exact Ht | exact Hk]. }
  cbn [evict foldl app]. by destruct (OnEviction (evict ev c)).
Qed.

Lemma gc_twice_witness :
  let c := mkCache 100 10 3 true 0
             {[ "a" := mkbuffer [x61] 5; "b" := mkbuffer [x62; x63] 95 ]}
             10 true in
  let clock := fun _ : string => 100 in
  gc ["b"; "a"] clock (state (gc ["b"; "a"] clock c))
  = (tt, state (gc ["b"; "a"] clock c), [EvLock; EvUnlock]).
Proof.
  intros c clock. apply gc_twice.
  apply NoDup_cons. split; [|apply NoDup_singleton].
  intros Hin%list_elem_of_singleton. discriminate Hin.
Defined.

Lemma uint64_sub_sub' a b d :
  uint64 (uint64 (a - uint64 b) - uint64 d) = uint64 (a - b - d).
Proof.
  rewrite uint64_sub_sub. unfold uint64.
  replace (a - (b + d mod 2 ^ 64)) with (a - b - d mod 2 ^ 64) by lia.
  apply Zminus_mod_idemp_r.
Qed.

Lemma delete_swap k1 k2 c :
  state (delete k1 (state (delete k2 c)))
  = state (delete k2 (state (delete k1 c))).
Proof.
  destruct (decide (k1 = k2)) as [->|Hne]; [done|].
  destruct (entries c !! k1) as [b1|] eqn:H1;
    destruct (entries c !! k2) as [b2|] eqn:H2.
  - rewrite (delete_present _ _ _ H1), (delete_present _ _ _ H2).
    cbn [state fst snd].
    rewrite (delete_present k1 _ b1), (delete_present k2 _ b2);
      [| by simpl; rewrite lookup_delete_ne
       | by simpl; rewrite lookup_delete_ne].
    cbn [state fst snd maxSize maxCacheEntrySize currentSize OnEviction
         totalEvicted entries expiry stopGC].
    rewrite !uint64_sub_sub', delete_delete. f_equal. f_equal. lia.
  - rewrite (delete_present _ _ _ H1), (delete_absent _ _ H2).
    cbn [state fst snd].
    rewrite (delete_present _ _ _ H1), (delete_absent k2); [done|].
    simpl. by rewrite lookup_delete_ne.
  - rewrite (delete_absent _ _ H1). cbn [state fst snd].
    rewrite (delete_present _ _ _ H2). cbn [state fst snd].
    rewrite (delete_absent k1); [done|]. simpl. by rewrite lookup_delete_ne.
  - rewrite (delete_absent _ _ H1), (delete_absent _ _ H2).
    cbn [state fst snd].
    by rewrite (delete_absent _ _ H1), (delete_absent _ _ H2).
Qed.

Lemma evict_Permutation ks1 ks2 :
  ks1 ≡ₚ ks2 -> forall c, evict ks1 c = evict ks2 c.
Proof.
  induction 1 as [|k ks1 ks2 _ IH|k1 k2 ks|ks1 ks2 ks3 _ IH1 _ IH2];
    intros c.
  - done.
  - rewrite !evict_cons. apply IH.
  - rewrite !evict_cons. by rewrite delete_swap.
  - by rewrite IH1.
Qed.

(** X10. The cache a sweep leaves does not depend on the order in which
    the map is visited: two visits of the same keys, with the same
    readings of the clock, leave the same cache, and call the callback
    with the same keys, possibly in another order. *)
Theorem gc_order_independent order1 order2 clock c :
  NoDup order1 -> order1 ≡ₚ order2 ->
  state (gc order1 clock c) = state (gc order2 clock c) /\
  callbacks (trace (gc order1 clock c))
  ≡ₚ callbacks (trace (gc order2 clock c)).
Proof.
  intros Hnd1 Hp.
  assert (Hnd2 : NoDup order2) by (by rewrite <- Hp).
  assert (Hev : filter (sweep_test c clock) order1
                ≡ₚ filter (sweep_test c clock) order2) by (by rewrite Hp).
  rewrite (gc_run _ _ _ Hnd1), (gc_run _ _ _ Hnd2).
  cbn [state trace fst snd app callbacks]. split.
  - by apply evict_Permutation.
  - destruct (OnEviction c); [|done]. by rewrite !callbacks_OnEviction.
Qed.

Lemma gc_order_independent_witness :
  let c := mkCache 100 10 3 true 0
             {[ "a" := mkbuffer [x61] 5; "b" := mkbuffer [x62; x63] 6 ]}
             10 true in
  let clock := fun _ : string => 100 in
  state (gc ["b"; "a"] clock c) = state (gc ["a"; "b"] clock c) /\
  callbacks (trace (gc ["b"; "a"] clock c))
  ≡ₚ callbacks (trace (gc ["a"; "b"] clock c)).
Proof.
  intros c clock. apply gc_order_independent.
  - apply NoDup_cons. split; [|apply NoDup_singleton].
    intros Hin%list_elem_of_singleton. discriminate Hin.
  - apply perm_swap.
Defined.

(** X11. Sliding expiry: an entry that [Open] has just returned at time
    [now] survives every sweep that reads the clock, at that entry, no
    more than [expiry] after [now]; it is still stored, with its bytes
    and [lastAccessed = now]. *)
Theorem Open_then_gc key atime now order clock c b :
  entries c !! key = Some b ->
  atime <= lastAccessed b ->
  NoDup order ->
  Sub (clock key) now <= expiry c ->
  entries (state (gc order clock (state (Open key atime now c)))) !! key
  = Some (mkbuffer (buf b) now).
Proof.
  intros Hb Hge Hnd Hidle.
  rewrite (Open_fresh _ _ _ _ _ Hb) by lia. cbn [state fst snd].
  rewrite (gc_run _ _ _ Hnd). cbn [state fst snd].
  rewrite evict_entries, bool_decide_eq_false_2.
  - simpl. apply lookup_insert_eq.
  - intros [Ht _]%list_elem_of_filter. revert Ht.
    unfold sweep_test, expired, UTC. simpl. rewrite lookup_insert_eq.
    simpl. destruct (Z.ltb_spec (expiry c) (Sub (clock key) now)); [lia|].
    rewrite andb_false_r. exact id.
Qed.

Lemma Open_then_gc_witness :
  let c := mkCache 100 10 1 true 0 {[ "k" := mkbuffer [x61] 5 ]} 10 true in
  entries (state (gc ["k"] (fun _ => 110) (state (Open "k" 5 100 c)))) !! "k"
  = Some (mkbuffer [x61] 100).
Proof.
  intros c.
  apply (Open_then_gc "k" 5 100 ["k"] (fun _ => 110) c (mkbuffer [x61] 5)).
  - reflexivity.
  - simpl. lia.
  - apply NoDup_singleton.
  - vm_compute. discriminate.
Defined.

(** ** Composition of commits *)

Lemma uint64_add_add a b d :
  uint64 (uint64 (a + uint64 b) + uint64 d) = uint64 (a + b + d).
Proof.
  unfold uint64. generalize (2 ^ 64). intros n.
  rewrite Zplus_mod_idemp_l.
  replace (a + b mod n + d mod n) with (b mod n + (a + d mod n)) by lia.
  rewrite Zplus_mod_idemp_l.
  replace (b + (a + d mod n)) with (a + b + d mod n) by lia.
  apply Zplus_mod_idemp_r.
Qed.

Lemma onClose_onClose k1 k2 p1 p2 now1 now2 c :
  k1 <> k2 ->
  state (onClose k2 p2 now2 (state (onClose k1 p1 now1 c)))
  = state (onClose k1 p1 now1 (state (onClose k2 p2 now2 c))).
Proof.
  intros Hne.
  destruct (onClose_cases k1 p1 now1 c)
    as [[-> H1] | [(H1 & Hgt1 & Hr1) | (H1 & Hle1 & Hr1)]];
  destruct (onClose_cases k2 p2 now2 c)
    as [[-> H2] | [(H2 & Hgt2 & Hr2) | (H2 & Hle2 & Hr2)]];
    rewrite ?onClose_empty; cbn [state fst snd];
    rewrite ?onClose_empty; cbn [state fst snd]; try done.
  - rewrite Hr1, Hr2. cbn [state fst snd]. by rewrite Hr1, Hr2.
  - rewrite Hr1, Hr2. cbn [state fst snd]. rewrite Hr2.
    by rewrite onClose_full.
  - rewrite Hr1, Hr2. cbn [state fst snd]. rewrite Hr1.
    by rewrite onClose_full.
  - rewrite Hr1, Hr2. cbn [state fst snd].
    rewrite !onClose_commit by done.
    cbn [state fst snd maxSize maxCacheEntrySize currentSize OnEviction
         totalEvicted entries expiry stopGC].
    rewrite !uint64_add_add, (insert_insert_ne _ k2 k1) by done.
    f_equal. f_equal. lia.
Qed.

(** X12. Commits under distinct keys are independent: made in either
    order they leave the same cache, and the entry under the first key
    after both commits is the one its own commit leaves. *)
Theorem commits_commute k1 k2 chunks1 chunks2 now1 now2 c :
  k1 <> k2 ->
  state (run [OpCommit k1 chunks1 now1; OpCommit k2 chunks2 now2] c)
  = state (run [OpCommit k2 chunks2 now2; OpCommit k1 chunks1 now1] c) /\
  entries (state (run [OpCommit k1 chunks1 now1;
                       OpCommit k2 chunks2 now2] c)) !! k1
  = entries (state (run [OpCommit k1 chunks1 now1] c)) !! k1.
Proof.
  intros Hne. cbn [run exec]. run_M. unfold Close.
  destruct (write_all_buffer (Create k1) chunks1) as [-> ->].
  destruct (write_all_buffer (Create k2) chunks2) as [-> ->].
  cbn [Create ByteBuffer onClose_key app]. split.
  - by apply onClose_onClose.
  - set (c1 := state (onClose k1 (concat chunks1) now1 c)).
    destruct (onClose_cases k2 (concat chunks2) now2 c1)
      as [[_ ->] | [(_ & _ & ->) | (_ & _ & ->)]]; [done | done |].
    simpl. by rewrite lookup_insert_ne.
Qed.

Lemma commits_commute_witness :
  let c := mkCache 100 10 0 true 0 ∅ 0 false in
  state (run [OpCommit "a" [[x61]] 1; OpCommit "b" [[x62]; [x63]] 2] c)
  = state (run [OpCommit "b" [[x62]; [x63]] 2; OpCommit "a" [[x61]] 1] c) /\
  entries (state (run [OpCommit "a" [[x61]] 1;
                       OpCommit "b" [[x62]; [x63]] 2] c)) !! "a"
  = entries (state (run [OpCommit "a" [[x61]] 1] c)) !! "a".
Proof. intros c. apply commits_commute. discriminate. Defined.

(** ** The mutex *)

Lemma lock_discipline_call ks t :
  lock_discipline false ((EvOnEviction <$> ks) ++ t)
  = lock_discipline false t.
Proof. induction ks as [|k ks IH]; [done|]. simpl. exact IH. Qed.

(** X13. Lock discipline.  In every sequence of commits, opens, deletes
    and sweeps the mutex is never locked while it is held, never unlocked
    while it is free, and is free at the end. *)
Theorem run_lock_discipline ops : forall c,
  lock_discipline false (trace (run ops c)) = Some false.
Proof.
  induction ops as [|o ops IH]; intros c; [done|].
  cbn [run]. run_M. rewrite app_nil_r.
  destruct (exec_trace o c) as [ks ->].
  rewrite <- app_assoc. cbn [app lock_discipline].
  rewrite lock_discipline_call. apply IH.
Qed.

(** ** The drift of [currentSize] *)

Lemma delete_drift L k c :
  currentSize c = uint64 (storedBytes (entries c) + L) ->
  currentSize (state (delete k c))
  = uint64 (storedBytes (entries (state (delete k c))) + L).
Proof.
  intros Hc. destruct (entries c !! k) as [b|] eqn:H.
  - rewrite (delete_present _ _ _ H). cbn [state fst snd currentSize entries].
    rewrite (storedBytes_delete _ _ _ H), Hc, uint64_sub. f_equal. lia.
  - by rewrite (delete_absent _ _ H).
Qed.

Lemma exec_drift L o c :
  currentSize c = uint64 (storedBytes (entries c) + L) ->
  currentSize (state (exec o c))
  = uint64 (storedBytes (entries (state (exec o c)))
            + (L + replaced_by o c)).
Proof.
  destruct o as [key chunks now|key atime now|key|order clock];
    intros Hc; unfold exec, replaced_by; run_M; rewrite ?Z.add_0_r.
  - unfold Close.
    destruct (write_all_buffer (Create key) chunks) as [-> ->].
    cbn [Create ByteBuffer onClose_key app].
    destruct (onClose_cases key (concat chunks) now c)
      as [[Hp ->] | [(H0 & Hgt & ->) | (H0 & Hle & ->)]];
      cbn [state fst snd currentSize entries].
    + rewrite Hp. cbn [Len length Z.of_nat Z.eqb orb].
      destruct (entries c !! key); by rewrite Z.add_0_r.
    + destruct (Z.ltb_spec (maxCacheEntrySize c)
                  (uint64 (Len (concat chunks)))); [|lia].
      rewrite orb_true_r. destruct (entries c !! key); by rewrite Z.add_0_r.
    + destruct (Z.eqb_spec (Len (concat chunks)) 0); [lia|].
      destruct (Z.ltb_spec (maxCacheEntrySize c)
                  (uint64 (Len (concat chunks)))); [lia|].
      cbn [orb]. rewrite Hc.
      destruct (entries c !! key) as [b|] eqn:Hk.
      * rewrite (storedBytes_replace _ _ _ _ Hk). cbn [buf].
        rewrite uint64_add. f_equal. lia.
      * rewrite (storedBytes_insert _ _ _ Hk). cbn [buf].
        rewrite uint64_add. f_equal. lia.
  - destruct (Open_cases key atime now c)
      as [[_ ->] | [(b & _ & _ & ->) | (b & Hb & _ & ->)]];
      [done | by apply delete_drift |].
    cbn [state fst snd set_entries currentSize entries].
    rewrite (storedBytes_replace _ _ _ _ Hb). cbn [buf]. rewrite Hc.
    f_equal. lia.
  - rewrite Delete_state. by apply delete_drift.
  - apply (gc_shape (fun c' =>
      currentSize c' = uint64 (storedBytes (entries c') + L)));
      [apply delete_drift | done].
Qed.

Lemma run_drift ops : forall L c,
  currentSize c = uint64 (storedBytes (entries c) + L) ->
  currentSize (state (run ops c))
  = uint64 (storedBytes (entries (state (run ops c)))
            + (L + replaced_bytes ops c)).
Proof.
  induction ops as [|o ops IH]; intros L c Hc.
  - simpl. by rewrite Z.add_0_r.
  - cbn [run replaced_bytes]. run_M.
    rewrite (IH _ _ (exec_drift _ o c Hc)). f_equal. lia.
Qed.

Lemma replaced_bytes_nonneg ops : forall c, 0 <= replaced_bytes ops c.
Proof.
  induction ops as [|o ops IH]; intros c; [done|].
  cbn [replaced_bytes]. specialize (IH (state (exec o c))).
  assert (0 <= replaced_by o c); [|lia].
  destruct o; simpl; try lia.
  destruct (entries c !! key) as [b|]; [|lia].
  destruct (_ || _); [lia | apply Len_nonneg].
Qed.

(** X14. What [currentSize] counts.  From a cache whose [currentSize] is
    the sum of the stored lengths, after any sequence of commits, opens,
    deletes and sweeps [currentSize] is, modulo [2^64], the sum of the
    stored lengths plus the lengths of all the entries that commits have
    replaced; so it is the sum of the stored lengths when no commit
    replaced an entry. *)
Theorem run_currentSize ops c :
  size_ok c ->
  currentSize (state (run ops c))
  = uint64 (storedBytes (entries (state (run ops c)))
            + replaced_bytes ops c) /\
  0 <= replaced_bytes ops c /\
  (replaced_bytes ops c = 0 -> size_ok (state (run ops c))).
Proof.
  intros Hc.
  assert (H := run_drift ops 0 c). rewrite Z.add_0_r, Z.add_0_l in H.
  specialize (H Hc). split; [exact H|].
  split; [apply replaced_bytes_nonneg|].
  intros H0. unfold size_ok. by rewrite H, H0, Z.add_0_r.
Qed.

Lemma run_currentSize_witness :
  let c := mkCache 100 10 0 false 0 ∅ 0 false in
  let ops := [OpCommit "k" [[x61; x62]] 1; OpCommit "k" [[x63]] 2;
              OpDelete "k"] in
  currentSize (state (run ops c))
  = uint64 (storedBytes (entries (state (run ops c)))
            + replaced_bytes ops c) /\
  0 <= replaced_bytes ops c /\
  (replaced_bytes ops c = 0 -> size_ok (state (run ops c))).
Proof. intros c ops. apply run_currentSize. reflexivity. Defined.

(** ** The janitor *)

(** X15. Stopping the janitor of a cache made by [New], after any
    sequence of operations on the cache.  With a positive [expiry] there
    is one janitor: the first [StopGC] returns and leaves none, after
    which no sweep runs and a second [StopGC] blocks, as no janitor is
    left to receive.  With an [expiry] of zero or less there is no
    janitor and [StopGC] returns at once, changing nothing. *)
Theorem StopGC_after_New n d s ops :
  boot n d = Some s ->
  let s' := mksystem (state (run ops (cache s))) (janitors s) in
  (0 < d ->
   janitors s = 1%nat /\
   exists s1, StopGC s' = Some s1 /\
     cache s1 = cache s' /\ janitors s1 = 0%nat /\
     StopGC s1 = None /\
     forall order clock, tick order clock s1 = None) /\
  (d <= 0 -> janitors s = 0%nat /\ StopGC s' = Some s').
Proof.
  intros Hboot s'.
  assert (Hcfg : stopGC (state (run ops (cache s))) = stopGC (cache s)).
  { pose proof (run_keeps_config ops (cache s)) as H. unfold config in H.
    by injection H. }
  assert (Hs : (0 < d -> janitors s = 1%nat /\ stopGC (cache s) = true) /\
               (d <= 0 -> janitors s = 0%nat /\ stopGC (cache s) = false)).
  { revert Hboot. unfold boot, New.
    destruct (Z.eqb_spec n 0) as [|_]; [done|].
    destruct (Z.ltb_spec 0 d) as [Hd|Hd]; intros [= <-]; simpl;
      split; intros; (lia || done). }
  destruct Hs as [Hpos Hneg]. unfold s', StopGC, tick. cbn [cache janitors].
  rewrite Hcfg. split.
  - intros Hd. destruct (Hpos Hd) as [Hj Hst]. rewrite Hj, Hst.
    split; [done|].
    eexists. split; [reflexivity|]. cbn [cache janitors].
    rewrite Hcfg, Hst. repeat split.
  - intros Hd. by destruct (Hneg Hd) as [-> ->].
Qed.

Lemma StopGC_after_New_witness :
  exists s, boot 100 8 = Some s /\
    let s' := mksystem (state (run [OpCommit "k" [[x61]] 1] (cache s)))
                (janitors s) in
    exists s1, StopGC s' = Some s1 /\
      cache s1 = cache s' /\ janitors s1 = 0%nat /\
      StopGC s1 = None /\
      forall order clock, tick order clock s1 = None.
Proof.
  eexists. split; [reflexivity|].
  apply (proj1 (StopGC_after_New 100 8 _ [OpCommit "k" [[x61]] 1] eq_refl)).
  lia.
Defined.

(** X16. A janitor started by hand on a cache without expiry cannot be
    stopped and does nothing: [StopGC] returns at once and the janitor is
    still there, and each of its wakes leaves the cache as it was and
    calls no callback. *)
Theorem StartGC_without_expiry s order clock :
  stopGC (cache s) = false ->
  expiry (cache s) <= 0 ->
  StopGC (StartGC s) = Some (StartGC s) /\
  janitors (StartGC s) = S (janitors s) /\
  tick order clock (StartGC s) = Some (StartGC s, [EvLock; EvUnlock]).
Proof.
  intros Hnil Hexp. unfold StopGC, tick, StartGC. cbn [cache janitors].
  rewrite Hnil, (gc_disabled_run order clock (cache s) Hexp). done.
Qed.

Lemma StartGC_without_expiry_witness :
  let s := mksystem
             (mkCache 100 10 1 true 0 {[ "k" := mkbuffer [x61] 5 ]} 0 false)
             0 in
  StopGC (StartGC s) = Some (StartGC s) /\
  janitors (StartGC s) = 1%nat /\
  tick ["k"] (fun _ => 1000) (StartGC s)
  = Some (StartGC s, [EvLock; EvUnlock]).
Proof.
  intros s. apply StartGC_without_expiry; [reflexivity | simpl; lia].
Defined.

End objcache.
